(** * plasma_post.py: the FreeCAD plasma post-processor, embedded and verified

    The development follows [src/plasma_post.py]:
    - [processArguments] resolves the option set into the process-wide
      configuration (the module's global variables);
    - [parse] walks the commands of one path object, keeps the torch flag
      and the location dictionary, and produces the G-code of the object;
    - [export] assembles header, preamble, the objects and the postamble.

    Python floats, the built-ins that print and read them, and FreeCAD's
    unit conversion are not part of the repository: they are the fields of
    the class [Host], and every theorem holds for every host.  A reference
    host on exact rationals is given at the end for the examples. *)

From stdpp Require Import gmap strings list.
From Stdlib Require Import Ascii DecimalString DecimalNat QArith.

Local Open Scope nat_scope.

(** ** Text helpers (Python [str] operations used by the source) *)

Definition LF : string := String "010"%char EmptyString.

(** [sep.join(l)] *)
Definition join (sep : string) (l : list string) : string := String.concat sep l.

(** [pat in s] on strings: [pat] occurs in [s] as a substring. *)
Fixpoint contains (pat s : string) : bool :=
  String.prefix pat s ||
  match s with
  | EmptyString => false
  | String _ s' => contains pat s'
  end.

(** The text of a buffer of lines: every line followed by one line feed
    (each [out += line + "\n"] of the source appends one line). *)
Definition text_of (ls : list string) : string :=
  String.concat "" (map (λ l, l +:+ LF) ls).

(** Line boundaries of [str.splitlines] among the code points below 256. *)
Definition is_boundary (c : ascii) : bool :=
  bool_decide (c ∈ ["010"; "011"; "012"; "013"; "028"; "029"; "030"; "133"]%char).

(** [s.splitlines(keepends)]: [cur] is the line being read. *)
Fixpoint splitlines_from (keepends : bool) (cur : string) (s : string) : list string :=
  match s with
  | EmptyString => if decide (cur = EmptyString) then [] else [cur]
  | String c s' =>
      if is_boundary c then
        match c, s' with
        | "013"%char, String "010"%char s'' =>
            (cur +:+ (if keepends then String c LF else EmptyString))
              :: splitlines_from keepends EmptyString s''
        | _, _ =>
            (cur +:+ (if keepends then String c EmptyString else EmptyString))
              :: splitlines_from keepends EmptyString s'
        end
      else splitlines_from keepends (cur +:+ String c EmptyString) s'
  end.

Definition splitlines (keepends : bool) (s : string) : list string :=
  splitlines_from keepends EmptyString s.

(** The lines of a text, split at line feeds (a last line without a line
    feed counts as a line). *)
Fixpoint text_lines_from (cur : string) (s : string) : list string :=
  match s with
  | EmptyString => if decide (cur = EmptyString) then [] else [cur]
  | String c s' =>
      if Ascii.eqb c "010"%char then cur :: text_lines_from EmptyString s'
      else text_lines_from (cur +:+ String c EmptyString) s'
  end.

Definition text_lines (s : string) : list string := text_lines_from EmptyString s.

(** ** The host: Python floats and FreeCAD units *)

Inductive quantity := Velocity | Length.

Class Host := {
  float : Type;
  (** [float(s)] on a string; [None] is [ValueError] *)
  float_of_string : string → option float;
  (** [str(x)], as in [f"{x}"] *)
  float_str : float → string;
  (** [format(x, spec)]; [None] is [ValueError] *)
  float_format : float → string → option string;
  (** [x > 0.0] *)
  float_gt_zero : float → bool;
  (** [Units.Quantity(v, kind).getValueAs(unit)] *)
  getValueAs : quantity → float → string → float;
  (** the literal [0.5] *)
  float_half : float;
  (** [datetime.datetime.now()] at import time, printed *)
  now : string
}.

(** ** Data model *)

Section Model.
Context {host : Host}.

(** A path command: [c.Name] and [c.Parameters], a dictionary from letters
    to numbers, in its iteration order. *)
Record Command := {
  Name : string;
  Parameters : list (string * float)
}.

(** [param in c.Parameters] and [c.Parameters[param]] *)
Fixpoint param_lookup (param : string) (ps : list (string * float)) : option float :=
  match ps with
  | [] => None
  | (k, v) :: ps' => if String.eqb k param then Some v else param_lookup param ps'
  end.

(** A path object as [export] probes it: [obj.Path] may be missing
    ([hasattr(obj, "Path")]), and so may [obj.Active] and [obj.Base.Active]. *)
Record PathObject := {
  Label : string;
  Active : option bool;
  Base_Active : option bool;
  Path : option (list Command)
}.

(** The result of [parser.parse_args(shlex.split(argstring))] (lines 26-35
    give the options and their defaults). *)
Record Args := {
  no_header : bool;
  no_comments : bool;
  line_numbers : bool;
  no_show_editor : bool;
  precision : string;
  preamble : option string;
  postamble : option string;
  inches : bool;
  pierce_delay : string
}.

Definition default_args : Args :=
  {| no_header := false; no_comments := false; line_numbers := false;
     no_show_editor := false; precision := "3"; preamble := None;
     postamble := None; inches := false; pierce_delay := "0.5" |}.

(** The module's global variables that some function assigns or reads
    ([MODAL] and [COMMAND_SPACE] are never used).  [PRECISION] starts as
    the integer 3 and holds a string after [processArguments]; it is only
    read through [f".{PRECISION}f"], so it is kept as the text that is
    spliced in. *)
Record Globals := {
  OUTPUT_COMMENTS : bool;
  OUTPUT_HEADER : bool;
  OUTPUT_LINE_NUMBERS : bool;
  SHOW_EDITOR : bool;
  PRECISION : string;
  PIERCE_DELAY : float;
  UNITS : string;
  UNIT_SPEED_FORMAT : string;
  UNIT_FORMAT : string;
  PREAMBLE : string;
  POSTAMBLE : string
}.

Definition default_PREAMBLE : string :=
  "G90 G54 G40 G49 G80" +:+ LF +:+ "G21" +:+ LF +:+
  "(Setup for plasma cutting)" +:+ LF.

Definition default_POSTAMBLE : string :=
  "M8 (Torch OFF)" +:+ LF +:+ "G0 X0 Y0 (Return home)" +:+ LF +:+
  "M30 (Program end)" +:+ LF.

(** The globals as the module defines them (lines 37-58). *)
Definition initial_globals : Globals :=
  {| OUTPUT_COMMENTS := true; OUTPUT_HEADER := true;
     OUTPUT_LINE_NUMBERS := false; SHOW_EDITOR := true;
     PRECISION := "3"; PIERCE_DELAY := float_half;
     UNITS := "G21"; UNIT_SPEED_FORMAT := "mm/min"; UNIT_FORMAT := "mm";
     PREAMBLE := default_PREAMBLE; POSTAMBLE := default_POSTAMBLE |}.

Definition set_OUTPUT_HEADER (b : bool) (g : Globals) : Globals :=
  {| OUTPUT_COMMENTS := OUTPUT_COMMENTS g; OUTPUT_HEADER := b;
     OUTPUT_LINE_NUMBERS := OUTPUT_LINE_NUMBERS g; SHOW_EDITOR := SHOW_EDITOR g;
     PRECISION := PRECISION g; PIERCE_DELAY := PIERCE_DELAY g;
     UNITS := UNITS g; UNIT_SPEED_FORMAT := UNIT_SPEED_FORMAT g;
     UNIT_FORMAT := UNIT_FORMAT g;
     PREAMBLE := PREAMBLE g; POSTAMBLE := POSTAMBLE g |}.

Definition set_OUTPUT_COMMENTS (b : bool) (g : Globals) : Globals :=
  {| OUTPUT_COMMENTS := b; OUTPUT_HEADER := OUTPUT_HEADER g;
     OUTPUT_LINE_NUMBERS := OUTPUT_LINE_NUMBERS g; SHOW_EDITOR := SHOW_EDITOR g;
     PRECISION := PRECISION g; PIERCE_DELAY := PIERCE_DELAY g;
     UNITS := UNITS g; UNIT_SPEED_FORMAT := UNIT_SPEED_FORMAT g;
     UNIT_FORMAT := UNIT_FORMAT g;
     PREAMBLE := PREAMBLE g; POSTAMBLE := POSTAMBLE g |}.

Definition set_OUTPUT_LINE_NUMBERS (b : bool) (g : Globals) : Globals :=
  {| OUTPUT_COMMENTS := OUTPUT_COMMENTS g; OUTPUT_HEADER := OUTPUT_HEADER g;
     OUTPUT_LINE_NUMBERS := b; SHOW_EDITOR := SHOW_EDITOR g;
     PRECISION := PRECISION g; PIERCE_DELAY := PIERCE_DELAY g;
     UNITS := UNITS g; UNIT_SPEED_FORMAT := UNIT_SPEED_FORMAT g;
     UNIT_FORMAT := UNIT_FORMAT g;
     PREAMBLE := PREAMBLE g; POSTAMBLE := POSTAMBLE g |}.

Definition set_SHOW_EDITOR (b : bool) (g : Globals) : Globals :=
  {| OUTPUT_COMMENTS := OUTPUT_COMMENTS g; OUTPUT_HEADER := OUTPUT_HEADER g;
     OUTPUT_LINE_NUMBERS := OUTPUT_LINE_NUMBERS g; SHOW_EDITOR := b;
     PRECISION := PRECISION g; PIERCE_DELAY := PIERCE_DELAY g;
     UNITS := UNITS g; UNIT_SPEED_FORMAT := UNIT_SPEED_FORMAT g;
     UNIT_FORMAT := UNIT_FORMAT g;
     PREAMBLE := PREAMBLE g; POSTAMBLE := POSTAMBLE g |}.

Definition set_PRECISION (p : string) (g : Globals) : Globals :=
  {| OUTPUT_COMMENTS := OUTPUT_COMMENTS g; OUTPUT_HEADER := OUTPUT_HEADER g;
     OUTPUT_LINE_NUMBERS := OUTPUT_LINE_NUMBERS g; SHOW_EDITOR := SHOW_EDITOR g;
     PRECISION := p; PIERCE_DELAY := PIERCE_DELAY g;
     UNITS := UNITS g; UNIT_SPEED_FORMAT := UNIT_SPEED_FORMAT g;
     UNIT_FORMAT := UNIT_FORMAT g;
     PREAMBLE := PREAMBLE g; POSTAMBLE := POSTAMBLE g |}.

Definition set_PREAMBLE (p : string) (g : Globals) : Globals :=
  {| OUTPUT_COMMENTS := OUTPUT_COMMENTS g; OUTPUT_HEADER := OUTPUT_HEADER g;
     OUTPUT_LINE_NUMBERS := OUTPUT_LINE_NUMBERS g; SHOW_EDITOR := SHOW_EDITOR g;
     PRECISION := PRECISION g; PIERCE_DELAY := PIERCE_DELAY g;
     UNITS := UNITS g; UNIT_SPEED_FORMAT := UNIT_SPEED_FORMAT g;
     UNIT_FORMAT := UNIT_FORMAT g;
     PREAMBLE := p; POSTAMBLE := POSTAMBLE g |}.

Definition set_POSTAMBLE (p : string) (g : Globals) : Globals :=
  {| OUTPUT_COMMENTS := OUTPUT_COMMENTS g; OUTPUT_HEADER := OUTPUT_HEADER g;
     OUTPUT_LINE_NUMBERS := OUTPUT_LINE_NUMBERS g; SHOW_EDITOR := SHOW_EDITOR g;
     PRECISION := PRECISION g; PIERCE_DELAY := PIERCE_DELAY g;
     UNITS := UNITS g; UNIT_SPEED_FORMAT := UNIT_SPEED_FORMAT g;
     UNIT_FORMAT := UNIT_FORMAT g;
     PREAMBLE := PREAMBLE g; POSTAMBLE := p |}.

(** [UNITS = ...; UNIT_SPEED_FORMAT = ...; UNIT_FORMAT = ...] *)
Definition set_units (u speed len : string) (g : Globals) : Globals :=
  {| OUTPUT_COMMENTS := OUTPUT_COMMENTS g; OUTPUT_HEADER := OUTPUT_HEADER g;
     OUTPUT_LINE_NUMBERS := OUTPUT_LINE_NUMBERS g; SHOW_EDITOR := SHOW_EDITOR g;
     PRECISION := PRECISION g; PIERCE_DELAY := PIERCE_DELAY g;
     UNITS := u; UNIT_SPEED_FORMAT := speed; UNIT_FORMAT := len;
     PREAMBLE := PREAMBLE g; POSTAMBLE := POSTAMBLE g |}.

Definition set_PIERCE_DELAY (d : float) (g : Globals) : Globals :=
  {| OUTPUT_COMMENTS := OUTPUT_COMMENTS g; OUTPUT_HEADER := OUTPUT_HEADER g;
     OUTPUT_LINE_NUMBERS := OUTPUT_LINE_NUMBERS g; SHOW_EDITOR := SHOW_EDITOR g;
     PRECISION := PRECISION g; PIERCE_DELAY := d;
     UNITS := UNITS g; UNIT_SPEED_FORMAT := UNIT_SPEED_FORMAT g;
     UNIT_FORMAT := UNIT_FORMAT g;
     PREAMBLE := PREAMBLE g; POSTAMBLE := POSTAMBLE g |}.

(** ** Configuration resolver: [processArguments] *)

(** Truth value of a Python string. *)
Definition truthy (s : string) : bool := negb (String.eqb s "").

(** The assignments of lines 67-84, in order: none of them can raise. *)
Definition apply_flags (args : Args) (g : Globals) : Globals :=
  let g := if no_header args then set_OUTPUT_HEADER false g else g in
  let g := if no_comments args then set_OUTPUT_COMMENTS false g else g in
  let g := if line_numbers args then set_OUTPUT_LINE_NUMBERS true g else g in
  let g := if no_show_editor args then set_SHOW_EDITOR false g else g in
  let g := if truthy (precision args) then set_PRECISION (precision args) g else g in
  let g := match preamble args with
           | Some p => if truthy p then set_PREAMBLE p g else g
           | None => g
           end in
  let g := match postamble args with
           | Some p => if truthy p then set_POSTAMBLE p g else g
           | None => g
           end in
  let g := if inches args then set_units "G20" "in/min" "in" g else g in
  g.

(** [processArguments]: [parsed] is what [parser.parse_args] returned,
    [None] when it (or [shlex.split]) raised.  The second component is the
    state of the globals when the function returns. *)
Definition processArguments (parsed : option Args) (g : Globals) : bool * Globals :=
  match parsed with
  | None => (false, g)
  | Some args =>
      let g := apply_flags args g in
      if truthy (pierce_delay args) then
        match float_of_string (pierce_delay args) with
        | Some d => (true, set_PIERCE_DELAY d g)
        | None => (false, g)
        end
      else (true, g)
  end.

(** ** Translation engine: [parse] *)

(** The local state of [parse]: the buffer [out] as the list of the lines
    appended so far (the text is [text_of out]), the torch flag [cutting],
    and [currLocation].  ([lastcommand] is set to [None] and never used.) *)
Record EngineState := {
  out : list string;
  cutting : bool;
  currLocation : gmap string float
}.

(** The state at the top of [parse] (lines 160-164). *)
Definition parse_start : EngineState :=
  {| out := []; cutting := false; currLocation := ∅ |}.

(** [out += line + "\n"] *)
Definition emit (line : string) (st : EngineState) : EngineState :=
  {| out := out st ++ [line]; cutting := cutting st;
     currLocation := currLocation st |}.

Definition set_cutting (b : bool) (st : EngineState) : EngineState :=
  {| out := out st; cutting := b; currLocation := currLocation st |}.

Definition M7_line : string := "M7 (Torch ON)".
Definition M8_line : string := "M8 (Torch OFF)".

(** [f"G4 P{PIERCE_DELAY} (Pierce delay)"] *)
Definition G4_line (g : Globals) : string :=
  "G4 P" +:+ float_str (PIERCE_DELAY g) +:+ " (Pierce delay)".

(** [precision_string = f".{PRECISION}f"] *)
Definition precision_string (g : Globals) : string :=
  "." +:+ PRECISION g +:+ "f".

(** [[f"{k}{format(float(v), precision_string)}" for k,v in c.Parameters.items()]] *)
Definition format_items (spec : string) (ps : list (string * float)) : option (list string) :=
  mapM (λ kv, s ← float_format kv.2 spec; Some (kv.1 +:+ s)) ps.

Definition params : list string := ["X"; "Y"; "F"; "I"; "J"].

(** One round of the loop of lines 191-200 on the list [outstring]. *)
Definition append_param (g : Globals) (c : Command)
    (outstring : list string) (param : string) : option (list string) :=
  match param_lookup param (Parameters c) with
  | None => Some outstring
  | Some v =>
      if String.eqb param "F" then
        let speed_value := getValueAs Velocity v (UNIT_SPEED_FORMAT g) in
        if float_gt_zero speed_value then
          s ← float_format speed_value (precision_string g);
          Some (outstring ++ [param +:+ s])
        else Some outstring
      else
        s ← float_format (getValueAs Length v (UNIT_FORMAT g)) (precision_string g);
        Some (outstring ++ [param +:+ s])
  end.

(** A [for] loop whose body may raise. *)
Fixpoint for_each {S A : Type} (body : S → A → option S) (s : S) (l : list A) : option S :=
  match l with
  | [] => Some s
  | a :: l' => s' ← body s a; for_each body s' l'
  end.

(** Lines 191-200: the movement parameters of a command. *)
Definition movement_params (g : Globals) (c : Command) : option (list string) :=
  for_each (append_param g c) [] params.

(** Lines 203-209: torch control. *)
Definition torch_control (g : Globals) (command : string) (st : EngineState) : EngineState :=
  if bool_decide (command ∈ ["G1"; "G2"; "G3"]) && negb (cutting st) then
    set_cutting true (emit (G4_line g) (emit M7_line st))
  else if String.eqb command "G0" && cutting st then
    set_cutting false (emit M8_line st)
  else st.

(** Lines 216-218: [currLocation[param] = c.Parameters[param]]. *)
Definition update_location (c : Command) (st : EngineState) : EngineState :=
  {| out := out st; cutting := cutting st;
     currLocation :=
       fold_left (λ loc param,
                    match param_lookup param (Parameters c) with
                    | Some v => <[param := v]> loc
                    | None => loc
                    end) params (currLocation st) |}.

(** The body of the loop over [pathobj.Path.Commands] (lines 168-218);
    [None] is an exception leaving [parse]. *)
Definition process_command (g : Globals) (st : EngineState) (c : Command) : option EngineState :=
  let command := Name c in
  if contains "CustomCommand" command then
    items ← format_items (precision_string g) (Parameters c);
    Some (emit ("(Custom: " +:+ command +:+ " " +:+ join " " items +:+ ")") st)
  else if bool_decide (command ∈ ["M100"; "M101"]) then
    match Parameters c with
    | [] => Some (emit (command +:+ " (Special plasma command)") st)
    | _ :: _ =>
        items ← format_items (precision_string g) (Parameters c);
        Some (emit (command +:+ " " +:+ join " " items +:+ " (Special plasma command)") st)
    end
  else if bool_decide (command ∈ ["M3"; "M4"; "M5"; "G17"; "G18"; "G19"; "G43"]) then
    Some st
  else
    outstring ← movement_params g c;
    let st := torch_control g command st in
    let st := match outstring with
              | [] => st
              | _ :: _ => emit (command +:+ " " +:+ join " " outstring) st
              end in
    Some (update_location c st).

(** The loop of [parse], from any state. *)
Definition run_commands (g : Globals) (st : EngineState) (cmds : list Command) : option EngineState :=
  for_each (process_command g) st cmds.

(** Lines 220-222: the final safety check. *)
Definition final_safety (st : EngineState) : list string :=
  if cutting st then out st ++ [M8_line] else out st.

(** The lines [parse] has put in [out] when it returns. *)
Definition parse_lines (g : Globals) (cmds : list Command) : option (list string) :=
  st ← run_commands g parse_start cmds;
  Some (final_safety st).

(** [parse(pathobj)]: the text of the lines, for [pathobj.Path.Commands]
    (an object without [Path] raises, [export] rules it out first). *)
Definition parse (g : Globals) (pathobj : PathObject) : option string :=
  cmds ← Path pathobj;
  text_of <$> parse_lines g cmds.

(** ** Orchestration: [export] *)

(** Lines 105-108. *)
Definition header_lines (g : Globals) : list string :=
  [ "(Exported by FreeCAD Plasma Postprocessor - " +:+ now +:+ ")";
    "(Units: " +:+ (if String.eqb (UNITS g) "G20" then "inches" else "mm") +:+ ")";
    "(Pierce delay: " +:+ float_str (PIERCE_DELAY g) +:+ "s)" ].

(** Lines 112-113: [for line in PREAMBLE.splitlines(False): gcode += line + "\n"]. *)
Definition preamble_text (text : string) : string :=
  text_of (splitlines false text).

(** Lines 133-134: [for line in POSTAMBLE.splitlines(True): gcode += line + "\n"]. *)
Definition postamble_text (text : string) : string :=
  text_of (splitlines true text).

(** Lines 117-120: the object is skipped. *)
Definition inactive (obj : PathObject) : bool :=
  match Active obj with
  | Some false => true
  | _ => match Base_Active obj with
         | Some false => true
         | _ => false
         end
  end.

(** The body of the loop of lines 116-129; [None] is an exception. *)
Definition export_object (g : Globals) (gcode : string) (obj : PathObject) : option string :=
  if inactive obj then Some gcode
  else
    let gcode :=
      if OUTPUT_COMMENTS g then
        gcode +:+ text_of [ "(begin operation: " +:+ Label obj +:+ ")";
                            "(machine units: " +:+ UNIT_SPEED_FORMAT g +:+ ")" ]
      else gcode in
    body ← parse g obj;
    let gcode := gcode +:+ body in
    let gcode :=
      if OUTPUT_COMMENTS g then
        gcode +:+ text_of [ "(finish operation: " +:+ Label obj +:+ ")" ]
      else gcode in
    Some gcode.

(** Lines 103-134: the text [gcode] that [export] builds. *)
Definition export_gcode (g : Globals) (objectslist : list PathObject) : option string :=
  let gcode := "" in
  let gcode := if OUTPUT_HEADER g then gcode +:+ text_of (header_lines g) else gcode in
  let gcode := if OUTPUT_COMMENTS g then gcode +:+ text_of ["(begin preamble)"] else gcode in
  let gcode := gcode +:+ preamble_text (PREAMBLE g) in
  let gcode := gcode +:+ text_of [UNITS g] in
  gcode ← for_each (export_object g) gcode objectslist;
  let gcode := if OUTPUT_COMMENTS g then gcode +:+ text_of ["(begin postamble)"] else gcode in
  let gcode := gcode +:+ postamble_text (POSTAMBLE g) in
  Some gcode.

(** [export(objectslist, filename, argstring)] up to the editor dialog and
    the file: the outer [None] is an exception, the inner one the value
    [None] that lines 93 and 100 return; the second component is the state
    of the globals afterwards. *)
Definition export (objectslist : list PathObject) (parsed : option Args) (g : Globals)
    : option (option string) * Globals :=
  let '(ok, g) := processArguments parsed g in
  if negb ok then (Some None, g)
  else if existsb (λ obj, negb (bool_decide (is_Some (Path obj)))) objectslist
  then (Some None, g)
  else (Some <$> export_gcode g objectslist, g).

(** ** Vocabulary of the statements *)

(** The commands that reach the generic rule (lines 190-218): neither a
    custom marker, nor a special plasma directive, nor ignored. *)
Definition generic_rule (c : Command) : bool :=
  negb (contains "CustomCommand" (Name c))
  && negb (bool_decide (Name c ∈ ["M100"; "M101"]))
  && negb (bool_decide (Name c ∈ ["M3"; "M4"; "M5"; "G17"; "G18"; "G19"; "G43"])).

(** What the item list of a command is: one item per parameter, in the
    iteration order of the dictionary, the key followed by the raw value as
    [format] prints it with the precision specification. *)
Definition raw_items (g : Globals) (c : Command) (items : list string) : Prop :=
  Forall2 (λ kv item, ∃ s, float_format kv.2 (precision_string g) = Some s
                           ∧ item = kv.1 +:+ s)
          (Parameters c) items.


(** The movement parameters in the words of the specification: what each
    tracked letter contributes to the line, the letters taken in the order
    X, Y, F, I, J.  A length letter present on the command contributes its
    value in the active length unit, whatever the value. *)
Definition length_item (g : Globals) (c : Command) (letter : string) : option (list string) :=
  match param_lookup letter (Parameters c) with
  | None => Some []
  | Some v =>
      s ← float_format (getValueAs Length v (UNIT_FORMAT g)) (precision_string g);
      Some [letter +:+ s]
  end.

(** F contributes its value in the active speed unit, and only when that
    value is strictly positive. *)
Definition speed_item (g : Globals) (c : Command) : option (list string) :=
  match param_lookup "F" (Parameters c) with
  | None => Some []
  | Some v =>
      let speed := getValueAs Velocity v (UNIT_SPEED_FORMAT g) in
      if float_gt_zero speed then
        s ← float_format speed (precision_string g); Some ["F" +:+ s]
      else Some []
  end.

Definition spec_movement_params (g : Globals) (c : Command) : option (list string) :=
  x ← length_item g c "X";
  y ← length_item g c "Y";
  f ← speed_item g c;
  i ← length_item g c "I";
  j ← length_item g c "J";
  Some (x ++ y ++ f ++ i ++ j).

(** The line of the command itself (lines 212-213), if there is one. *)
Definition own_line (c : Command) (outstring : list string) : list string :=
  match outstring with
  | [] => []
  | _ :: _ => [Name c +:+ " " +:+ join " " outstring]
  end.

(** The one line of a custom marker or of a special plasma directive. *)
Definition marker_line (c : Command) (items : list string) : string :=
  if contains "CustomCommand" (Name c) then
    "(Custom: " +:+ Name c +:+ " " +:+ join " " items +:+ ")"
  else
    match items with
    | [] => Name c +:+ " (Special plasma command)"
    | _ :: _ => Name c +:+ " " +:+ join " " items +:+ " (Special plasma command)"
    end.

(** How many lines of a buffer are the line [line]. *)
Fixpoint count_line (line : string) (ls : list string) : nat :=
  match ls with
  | [] => 0
  | l :: ls' => (if String.eqb l line then 1 else 0) + count_line line ls'
  end.

(** Reading a buffer as a torch signal: from the torch state [b], a torch-on
    line is legal only with the torch off and a torch-off line only with
    the torch on; the result is the torch state after the last line. *)
Fixpoint torch_trace (b : bool) (ls : list string) : option bool :=
  match ls with
  | [] => Some b
  | l :: ls' =>
      if String.eqb l M7_line then (if b then None else torch_trace true ls')
      else if String.eqb l M8_line then (if b then torch_trace false ls' else None)
      else torch_trace b ls'
  end.

(** The torch state after a list of commands, read off their names alone. *)
Definition torch_after (b : bool) (cmds : list Command) : bool :=
  fold_left (λ b c,
               if generic_rule c then
                 if bool_decide (Name c ∈ ["G1"; "G2"; "G3"]) then true
                 else if String.eqb (Name c) "G0" then false
                 else b
               else b) cmds b.

Definition is_tracked (ch : ascii) : bool :=
  bool_decide (ch ∈ ["X"; "Y"; "F"; "I"; "J"]%char).

(** A space directly followed by a tracked letter occurs in [s]. *)
Fixpoint space_letter (s : string) : bool :=
  match s with
  | EmptyString => false
  | String a s' =>
      (Ascii.eqb a " " && match s' with
                          | String ch _ => is_tracked ch
                          | EmptyString => false
                          end)
      || space_letter s'
  end.

(** The run in the words of the specification: one torch flag for the whole
    run, false at its start, carried from each object to the next, and one
    safety closure after the commands of the last object. *)
Definition spec_run_lines (g : Globals) (run : list (list Command)) : option (list string) :=
  st ← for_each (run_commands g) parse_start run;
  Some (final_safety st).

(** A line boundary of [str.splitlines] occurs in [s]. *)
Fixpoint has_boundary (s : string) : bool :=
  match s with
  | EmptyString => false
  | String a s' => is_boundary a || has_boundary s'
  end.

(** The configuration [g'] is [g] with every option of [args] other than
    the pierce delay applied. *)
Definition flags_applied (args : Args) (g g' : Globals) : Prop :=
  OUTPUT_HEADER g' = (if no_header args then false else OUTPUT_HEADER g)
  ∧ OUTPUT_COMMENTS g' = (if no_comments args then false else OUTPUT_COMMENTS g)
  ∧ OUTPUT_LINE_NUMBERS g' = (if line_numbers args then true else OUTPUT_LINE_NUMBERS g)
  ∧ SHOW_EDITOR g' = (if no_show_editor args then false else SHOW_EDITOR g)
  ∧ PRECISION g' = (if truthy (precision args) then precision args else PRECISION g)
  ∧ PREAMBLE g' = match preamble args with
                  | Some p => if truthy p then p else PREAMBLE g
                  | None => PREAMBLE g
                  end
  ∧ POSTAMBLE g' = match postamble args with
                   | Some p => if truthy p then p else POSTAMBLE g
                   | None => POSTAMBLE g
                   end
  ∧ UNITS g' = (if inches args then "G20" else UNITS g)
  ∧ UNIT_SPEED_FORMAT g' = (if inches args then "in/min" else UNIT_SPEED_FORMAT g)
  ∧ UNIT_FORMAT g' = (if inches args then "in" else UNIT_FORMAT g)
  ∧ PIERCE_DELAY g' = PIERCE_DELAY g.

(** ** Vocabulary of the further properties *)

(** The lines that torch control puts before the line of a command, when
    the torch flag is [b] (lines 203-209). *)
Definition injected_lines (g : Globals) (command : string) (b : bool) : list string :=
  if bool_decide (command ∈ ["G1"; "G2"; "G3"]) && negb b then [M7_line; G4_line g]
  else if String.eqb command "G0" && b then [M8_line]
  else [].

(** The three unit globals name one unit system. *)
Definition units_consistent (g : Globals) : Prop :=
  (UNITS g = "G21" ∧ UNIT_SPEED_FORMAT g = "mm/min" ∧ UNIT_FORMAT g = "mm")
  ∨ (UNITS g = "G20" ∧ UNIT_SPEED_FORMAT g = "in/min" ∧ UNIT_FORMAT g = "in").

(** The configurations a process can be in: the module as loaded, and what
    any call of [processArguments] leaves behind, whether it succeeds or not. *)
Inductive reachable : Globals → Prop :=
  | reachable_initial : reachable initial_globals
  | reachable_call (parsed : option Args) (g : Globals) :
      reachable g → reachable (processArguments parsed g).2.

(** [args] with another value of the line-numbers flag. *)
Definition with_line_numbers (b : bool) (args : Args) : Args :=
  {| no_header := no_header args; no_comments := no_comments args;
     line_numbers := b; no_show_editor := no_show_editor args;
     precision := precision args; preamble := preamble args;
     postamble := postamble args; inches := inches args;
     pierce_delay := pierce_delay args |}.

Definition CRLF : string := String "013"%char LF.

(** The text of lines that each end in the terminator [sep]. *)
Definition text_with (sep : string) (ls : list string) : string :=
  String.concat "" (map (λ l, l +:+ sep) ls).

(** What [export] writes before the first object and after the last one. *)
Definition export_head (g : Globals) : string :=
  (if OUTPUT_HEADER g then text_of (header_lines g) else "")
  +:+ (if OUTPUT_COMMENTS g then text_of ["(begin preamble)"] else "")
  +:+ preamble_text (PREAMBLE g)
  +:+ text_of [UNITS g].

Definition export_tail (g : Globals) : string :=
  (if OUTPUT_COMMENTS g then text_of ["(begin postamble)"] else "")
  +:+ postamble_text (POSTAMBLE g).

(** ** Vocabulary of the number items *)

Definition is_digit (ch : ascii) : bool :=
  bool_decide (ch ∈ ["0"; "1"; "2"; "3"; "4"; "5"; "6"; "7"; "8"; "9"]%char).

Fixpoint all_digits (s : string) : bool :=
  match s with
  | EmptyString => true
  | String ch s' => is_digit ch && all_digits s'
  end.

(** The text after the first point of [s], empty when [s] has no point. *)
Fixpoint fraction_of (s : string) : string :=
  match s with
  | EmptyString => EmptyString
  | String ch s' => if Ascii.eqb ch "." then s' else fraction_of s'
  end.

(** [s] is a number with exactly [n] fractional digits. *)
Definition has_fraction_digits (n : nat) (s : string) : Prop :=
  String.length (fraction_of s) = n ∧ all_digits (fraction_of s) = true.

(** The decimal numeral of [n], as [--precision] carries it. *)
Definition decimal (n : nat) : string := NilZero.string_of_uint (Nat.to_uint n).

(** What Python documents of the presentation type [f]: under the
    specification [.nf] a number is printed with [n] digits after the point. *)
Definition fixed_point_format (n : nat) : Prop :=
  ∀ x s, float_format x ("." +:+ decimal n +:+ "f") = Some s → has_fraction_digits n s.

(** [s] is the value [x] as the configuration prints it: through [format]
    with the precision of the configuration, hence with that many
    fractional digits when the precision is a numeral. *)
Definition printed (g : Globals) (x : float) (s : string) : Prop :=
  float_format x ("." +:+ PRECISION g +:+ "f") = Some s
  ∧ ∀ n, PRECISION g = decimal n → fixed_point_format n → has_fraction_digits n s.

(** [body] is the items of [items], in order, with one space between two
    neighbours. *)
Inductive space_separated : list string → string → Prop :=
  | space_separated_nil : space_separated [] ""
  | space_separated_one (item : string) : space_separated [item] item
  | space_separated_more (item next : string) (items : list string) (body : string) :
      space_separated (next :: items) body →
      space_separated (item :: next :: items) (item +:+ " " +:+ body).

(** What a length letter contributes to the line of a command: nothing
    when the command does not carry the letter, and otherwise the letter
    followed by its value in the active length unit, printed. *)
Definition length_entry (g : Globals) (c : Command) (letter : string)
    (its : list string) : Prop :=
  ((letter ∉ (Parameters c).*1) → its = [])
  ∧ (∀ v, (letter, v) ∈ Parameters c →
          ∃ s, printed g (getValueAs Length v (UNIT_FORMAT g)) s
               ∧ its = [letter +:+ s]).

(** What F contributes: nothing when the command carries no F or when the
    feed in the active speed unit is not above zero, and otherwise F
    followed by the feed in the active speed unit, printed. *)
Definition speed_entry (g : Globals) (c : Command) (its : list string) : Prop :=
  (("F" ∉ (Parameters c).*1) → its = [])
  ∧ (∀ v, ("F", v) ∈ Parameters c →
          (float_gt_zero (getValueAs Velocity v (UNIT_SPEED_FORMAT g)) = false →
           its = [])
          ∧ (float_gt_zero (getValueAs Velocity v (UNIT_SPEED_FORMAT g)) = true →
             ∃ s, printed g (getValueAs Velocity v (UNIT_SPEED_FORMAT g)) s
                  ∧ its = ["F" +:+ s])).
End Model.

(** ** A reference host on exact rationals

    Floats are the rationals they denote; [format] knows the fixed-point
    specifications [.Nf] (round half to even on the exact value, which is
    what Python does on a float); [float] reads plain decimal literals
    [[-]digits[.digits]] only, and [str] prints the shortest exact decimal
    (exponent forms, infinities and NaN are outside this host);
    FreeCAD keeps lengths in mm and velocities in mm/s. *)

Module RefHost.

Definition digit_of (c : ascii) : option Z :=
  let n := Z.of_N (N_of_ascii c) in
  if bool_decide (48 ≤ n ≤ 57)%Z then Some (n - 48)%Z else None.

(** The value of a string of decimal digits, after the digits [acc]. *)
Fixpoint digits_value (acc : Z) (s : string) : option Z :=
  match s with
  | EmptyString => Some acc
  | String c s' => d ← digit_of c; digits_value (10 * acc + d)%Z s'
  end.

Definition nonempty_digits (s : string) : option Z :=
  if decide (s = EmptyString) then None else digits_value 0 s.

(** The text before and after the first occurrence of the character [sep]. *)
Fixpoint split_at (sep : ascii) (s : string) : string * option string :=
  match s with
  | EmptyString => (EmptyString, None)
  | String c s' =>
      if Ascii.eqb c sep then (EmptyString, Some s')
      else let '(a, b) := split_at sep s' in (String c a, b)
  end.

Definition unsigned_of_string (s : string) : option Q :=
  let '(ip, fp) := split_at "."%char s in
  i ← nonempty_digits ip;
  match fp with
  | None => Some (inject_Z i)
  | Some fs =>
      f ← digits_value 0 fs;
      let scale := (10 ^ Z.of_nat (String.length fs))%Z in
      Some (Qred (Qmake (i * scale + f) (Z.to_pos scale)))
  end.

Definition of_string (s : string) : option Q :=
  match s with
  | String "-"%char s' => Qopp <$> unsigned_of_string s'
  | _ => unsigned_of_string s
  end.

(** Round half to even. *)
Definition round_half_even (x : Q) : Z :=
  let den := Zpos (Qden x) in
  let q := (Qnum x / den)%Z in
  let r := (Qnum x mod den)%Z in
  if (2 * r <? den)%Z then q
  else if (den <? 2 * r)%Z then (q + 1)%Z
  else if Z.even q then q else (q + 1)%Z.

Definition string_of_Z (z : Z) : string :=
  NilZero.string_of_uint (N.to_uint (Z.to_N z)).

Fixpoint zeros (n : nat) : string :=
  match n with
  | O => EmptyString
  | S n' => String "0"%char (zeros n')
  end.

(** [x] in fixed point with [n] fractional digits. *)
Definition fixed (n : nat) (x : Q) : string :=
  let m := Z.abs (round_half_even (Qmult x (inject_Z (10 ^ Z.of_nat n)))) in
  let ds := string_of_Z m in
  let ds := zeros (S n - String.length ds) +:+ ds in
  let k := (String.length ds - n)%nat in
  (if Qlt_le_dec x 0 then "-" else "") +:+
  String.substring 0 k ds +:+
  (if n is O then "" else "." +:+ String.substring k n ds).

(** The precision of a specification [.Nf]. *)
Definition spec_precision (spec : string) : option nat :=
  match spec with
  | String "."%char rest =>
      let k := String.length rest in
      if String.eqb (String.substring (k - 1) 1 rest) "f" then
        Z.to_nat <$> nonempty_digits (String.substring 0 (k - 1) rest)
      else None
  | _ => None
  end.

Definition format (x : Q) (spec : string) : option string :=
  n ← spec_precision spec; Some (fixed n x).

(** The shortest decimal with at least one fractional digit, up to [fuel]
    more digits than [n]. *)
Fixpoint shortest (fuel n : nat) (x : Q) : string :=
  match fuel with
  | O => fixed n x
  | S fuel' =>
      if Qeq_bool (inject_Z (round_half_even (Qmult x (inject_Z (10 ^ Z.of_nat n)))))
                  (Qmult x (inject_Z (10 ^ Z.of_nat n)))
      then fixed n x
      else shortest fuel' (S n) x
  end.

Definition str (x : Q) : string := shortest 16 1 x.

Definition inch : Q := Qmake 254 10.

Definition value_as (kind : quantity) (v : Q) (unit : string) : Q :=
  match kind with
  | Length => if String.eqb unit "in" then Qred (Qdiv v inch) else v
  | Velocity =>
      if String.eqb unit "in/min" then Qred (Qdiv (Qmult v (inject_Z 60)) inch)
      else Qred (Qmult v (inject_Z 60))
  end.

Definition gt_zero (x : Q) : bool :=
  if Qlt_le_dec 0 x then true else false.

#[global] Instance host : Host := {
  float := Q;
  float_of_string := of_string;
  float_str := str;
  float_format := format;
  float_gt_zero := gt_zero;
  getValueAs := value_as;
  float_half := Qmake 1 2;
  now := "2024-01-01 00:00:00.000000"
}.

End RefHost.

(** ** Sample inputs, on the reference host *)

Definition command (name : string) (ps : list (string * Q)) : @Command RefHost.host :=
  {| Name := name; Parameters := ps |}.

Definition path_object (label : string) (cmds : list (@Command RefHost.host))
    : @PathObject RefHost.host :=
  {| Label := label; Active := Some true; Base_Active := None; Path := Some cmds |}.

(** The scenario of the specification: [G0 X0 Y0] then [G1 X10 Y10 F500]
    (FreeCAD keeps the feed in mm/s: 500 mm/min is 25/3). *)
Definition scenario_commands : list (@Command RefHost.host) :=
  [ command "G0" [("X", 0%Q); ("Y", 0%Q)];
    command "G1" [("X", 10%Q); ("Y", 10%Q); ("F", Qmake 25 3)] ].

Definition first_cut : list (@Command RefHost.host) := [command "G1" [("X", 1%Q)]].
Definition second_cut : list (@Command RefHost.host) := [command "G1" [("X", 2%Q)]].

Definition custom_foo : @Command RefHost.host :=
  command "CustomCommandFoo" [("A", Qmake 3 2)].

(** [--precision 2] *)
Definition precision_2_args : Args :=
  {| no_header := false; no_comments := false; line_numbers := false;
     no_show_editor := false; precision := "2"; preamble := None;
     postamble := None; inches := false; pierce_delay := "0.5" |}.

(** [--no-header --no-comments] *)
Definition quiet_args : Args :=
  {| no_header := true; no_comments := true; line_numbers := false;
     no_show_editor := false; precision := "3"; preamble := None;
     postamble := None; inches := false; pierce_delay := "0.5" |}.

(** [--inches] *)
Definition inches_args : Args :=
  {| no_header := false; no_comments := false; line_numbers := false;
     no_show_editor := false; precision := "3"; preamble := None;
     postamble := None; inches := true; pierce_delay := "0.5" |}.

(** [--no-header --pierce-delay abc] *)
Definition bad_delay_args : Args :=
  {| no_header := true; no_comments := false; line_numbers := false;
     no_show_editor := false; precision := "3"; preamble := None;
     postamble := None; inches := false; pierce_delay := "abc" |}.

(** [--precision abc] *)
Definition bad_precision_args : Args :=
  {| no_header := false; no_comments := false; line_numbers := false;
     no_show_editor := false; precision := "abc"; preamble := None;
     postamble := None; inches := false; pierce_delay := "0.5" |}.

(** The globals after a call of [processArguments] on a fresh module. *)
Definition globals_after (args : Args) : @Globals RefHost.host :=
  (processArguments (Some args) initial_globals).2.

Definition default_POSTAMBLE_lines : list string :=
  ["M8 (Torch OFF)"; "G0 X0 Y0 (Return home)"; "M30 (Program end)"].

(** [--no-header --preamble "M7 (Torch ON)\nM7 (Torch ON)"] *)
Definition torch_preamble_args : Args :=
  {| no_header := true; no_comments := false; line_numbers := false;
     no_show_editor := false; precision := "3";
     preamble := Some ("M7 (Torch ON)" +:+ LF +:+ "M7 (Torch ON)");
     postamble := None; inches := false; pierce_delay := "0.5" |}.

(** A state of the engine in the middle of an object, torch off. *)
Definition busy_state : @EngineState RefHost.host :=
  {| out := ["G0 X0.000 Y0.000"]; cutting := false;
     currLocation := <["X" := 0%Q]> ∅ |}.

(** A plunge: a cutting move that carries only the untracked letter Z. *)
Definition plunge : @Command RefHost.host := command "G1" [("Z", (-5)%Q)].

Definition cut_to_10 : @Command RefHost.host :=
  command "G1" [("X", 10%Q); ("Y", 10%Q); ("F", Qmake 25 3)].

(** The state after [cut_to_10] from the start of an object. *)
Definition after_cut_to_10 : @EngineState RefHost.host :=
  default parse_start (process_command initial_globals parse_start cut_to_10).

(** A cut and the rapid move that ends it. *)
Definition cut_and_retract : list (@Command RefHost.host) :=
  [command "G1" [("X", 1%Q)]; command "G0" [("X", 0%Q)]].

(** An inactive object whose commands [parse] could not translate under
    the precision text [abc]. *)
Definition switched_off_object : @PathObject RefHost.host :=
  {| Label := "Off"; Active := Some false; Base_Active := None;
     Path := Some scenario_commands |}.

(** The text of the scenario in inches. *)
Definition inches_scenario_text : string :=
  default "" (export_gcode (globals_after inches_args)
                [path_object "Op" scenario_commands]).

(** [--pierce-delay 1.25] *)
Definition slow_pierce_args : Args :=
  {| no_header := false; no_comments := false; line_numbers := false;
     no_show_editor := false; precision := "3"; preamble := None;
     postamble := None; inches := false; pierce_delay := "1.25" |}.

(** [--inches --precision 2] *)
Definition inches_2_args : Args :=
  {| no_header := false; no_comments := false; line_numbers := false;
     no_show_editor := false; precision := "2"; preamble := None;
     postamble := None; inches := true; pierce_delay := "0.5" |}.

(** An arc whose dictionary lists I first and the feed last, and carries
    neither Y nor J: X is 25.4 mm, the feed 25/3 mm/s. *)
Definition arc : @Command RefHost.host :=
  command "G2" [("I", 0%Q); ("X", Qmake 127 5); ("F", Qmake 25 3)].

(** A custom marker with two parameters. *)
Definition custom_two : @Command RefHost.host :=
  command "CustomCommandFoo" [("A", Qmake 3 2); ("B", 2%Q)].
(** * Properties of the engine and of the resolver *)

Section Properties.
Context {host : Host}.

Lemma process_command_generic (g : Globals) (st : EngineState) (c : Command) :
  generic_rule c = true →
  process_command g st c =
    outstring ← movement_params g c;
    Some (update_location c
            (match outstring with
             | [] => torch_control g (Name c) st
             | _ :: _ => emit (Name c +:+ " " +:+ join " " outstring)
                              (torch_control g (Name c) st)
             end)).
Proof.
  unfold generic_rule, process_command. intros H.
  apply andb_prop in H as [H H3]. apply andb_prop in H as [H1 H2].
  apply negb_true_iff in H1, H2, H3. rewrite H1, H2, H3.
  destruct (movement_params g c) as [[|t ts]|]; reflexivity.
Qed.

Lemma process_command_ignored (g : Globals) (st : EngineState) (c : Command) :
  Name c ∈ ["M3"; "M4"; "M5"; "G17"; "G18"; "G19"; "G43"] →
  process_command g st c = Some st.
Proof.
  intros Hin. unfold process_command.
  assert (contains "CustomCommand" (Name c) = false
          ∧ bool_decide (Name c ∈ ["M100"; "M101"]) = false) as [-> ->].
  { repeat (apply elem_of_cons in Hin as [-> | Hin]); [by vm_compute ..|].
    by apply elem_of_nil in Hin. }
  by rewrite bool_decide_eq_true_2.
Qed.

(** C9.  A command whose name is in the ignore set (M3, M4, M5, G17, G18,
    G19, G43) leaves the state of the engine as it is: no line is added to
    the output, the torch flag and the location dictionary are unchanged. *)
Theorem ignored_command_is_silent (g : Globals) (st : EngineState) (c : Command) :
  Name c ∈ ["M3"; "M4"; "M5"; "G17"; "G18"; "G19"; "G43"] →
  ∃ st', process_command g st c = Some st'
         ∧ out st' = out st
         ∧ cutting st' = cutting st
         ∧ currLocation st' = currLocation st.
Proof. intros Hin. exists st. by rewrite process_command_ignored. Qed.

Lemma format_items_raw (g : Globals) (c : Command) (items : list string) :
  format_items (precision_string g) (Parameters c) = Some items ↔ raw_items g c items.
Proof.
  unfold format_items, raw_items. rewrite mapM_Some. split.
  - induction 1 as [|kv item ps its H _ IH]; constructor; [|done].
    destruct (float_format kv.2 (precision_string g)) as [s|] eqn:E;
      simpl in H; [|done]. exists s. split; [done|congruence].
  - induction 1 as [|kv item ps its (s & E & ->) _ IH]; constructor; [|done].
    by rewrite E.
Qed.

Lemma format_items_total (spec : string) (ps : list (string * float)) :
  (∀ kv, kv ∈ ps → is_Some (float_format kv.2 spec)) →
  is_Some (format_items spec ps).
Proof.
  unfold format_items. induction ps as [|kv ps IH]; intros H; [by eexists|].
  destruct (H kv) as [s Hs]; [by left|].
  destruct IH as [its Hits]; [intros; apply H; by right|].
  exists ((kv.1 +:+ s) :: its). apply mapM_Some. apply mapM_Some in Hits.
  constructor; [by rewrite Hs|done].
Qed.

Lemma join_space_separated (items : list string) :
  space_separated items (join " " items).
Proof.
  induction items as [|item [|next items] IH]; [constructor..|].
  change (join " " (item :: next :: items))
    with (item +:+ " " +:+ join " " (next :: items)).
  by constructor.
Qed.

Lemma space_separated_join (items : list string) (body : string) :
  space_separated items body → body = join " " items.
Proof.
  induction 1 as [|item|item next items body _ IH]; [done|done|].
  change (join " " (item :: next :: items))
    with (item +:+ " " +:+ join " " (next :: items)).
  by rewrite IH.
Qed.

Lemma printed_by_format (g : Globals) (x : float) (s : string) :
  float_format x (precision_string g) = Some s → printed g x s.
Proof.
  unfold precision_string. intros H. split; [done|].
  intros n Hn Hlaw. apply (Hlaw x). by rewrite <- Hn.
Qed.

(** C8.  A custom-marker command whose values [format] accepts produces
    exactly one line, the comment [(Custom: <name> <items>)]: one item per
    parameter in the dictionary's order, the key followed by the raw value
    as [format] prints it under [.<PRECISION>f] (with exactly that many
    fractional digits when the precision is a numeral), one space between
    two items; the torch flag and the location dictionary are unchanged. *)
Theorem custom_command_one_comment (g : Globals) (st : EngineState) (c : Command) :
  contains "CustomCommand" (Name c) = true →
  (∀ kv, kv ∈ Parameters c →
         is_Some (float_format kv.2 ("." +:+ PRECISION g +:+ "f"))) →
  ∃ items body st',
    Forall2 (λ kv item, ∃ s, printed g kv.2 s ∧ item = kv.1 +:+ s) (Parameters c) items
    ∧ space_separated items body
    ∧ process_command g st c = Some st'
    ∧ out st' = out st ++ ["(Custom: " +:+ Name c +:+ " " +:+ body +:+ ")"]
    ∧ cutting st' = cutting st
    ∧ currLocation st' = currLocation st.
Proof.
  intros Hc Hfmt.
  destruct (format_items_total (precision_string g) (Parameters c) Hfmt)
    as [items Hitems].
  exists items, (join " " items). eexists.
  split; [|split; [apply join_space_separated|]].
  - apply format_items_raw in Hitems. unfold raw_items in Hitems.
    eapply Forall2_impl; [exact Hitems|].
    intros kv item (s & Hs & ->). exists s.
    split; [by apply printed_by_format|done].
  - unfold process_command. rewrite Hc, Hitems. simpl. done.
Qed.


Lemma movement_params_unfold (g : Globals) (c : Command) :
  movement_params g c = spec_movement_params g c.
Proof.
  unfold movement_params, spec_movement_params, length_item, speed_item.
  unfold params, for_each, append_param.
  change (String.eqb "X" "F") with false. change (String.eqb "Y" "F") with false.
  change (String.eqb "F" "F") with true. change (String.eqb "I" "F") with false.
  change (String.eqb "J" "F") with false.
  destruct (param_lookup "X" (Parameters c)) as [x|]; simpl;
    [destruct (float_format _ _); simpl; [|done] |];
  (destruct (param_lookup "Y" (Parameters c)) as [y|]; simpl;
    [destruct (float_format _ _); simpl; [|done] |]);
  (destruct (param_lookup "F" (Parameters c)) as [f|]; simpl;
    [destruct (float_gt_zero _); simpl;
       [destruct (float_format _ _); simpl; [|done] |] |]);
  (destruct (param_lookup "I" (Parameters c)) as [i|]; simpl;
    [destruct (float_format _ _); simpl; [|done] |]);
  (destruct (param_lookup "J" (Parameters c)) as [j|]; simpl;
    [destruct (float_format _ _); simpl; done | done]).
Qed.

Lemma param_lookup_None (k : string) (ps : list (string * float)) :
  param_lookup k ps = None → k ∉ ps.*1.
Proof.
  induction ps as [|[k' v] ps IH]; simpl; [intros _; apply not_elem_of_nil|].
  destruct (String.eqb_spec k' k) as [->|Hne]; [done|].
  intros H. apply not_elem_of_cons. split; [done|by apply IH].
Qed.

Lemma param_lookup_Some (k : string) (v : float) (ps : list (string * float)) :
  param_lookup k ps = Some v → (k, v) ∈ ps.
Proof.
  induction ps as [|[k' v'] ps IH]; simpl; [done|].
  destruct (String.eqb_spec k' k) as [->|Hne].
  - intros [= ->]. by left.
  - intros H. right. by apply IH.
Qed.

(** In a dictionary a key has one value: the lookup finds it. *)
Lemma param_lookup_elem (k : string) (v : float) (ps : list (string * float)) :
  NoDup ps.*1 → (k, v) ∈ ps → param_lookup k ps = Some v.
Proof.
  induction ps as [|[k' v'] ps IH]; simpl; intros Hnd Hin.
  { by apply elem_of_nil in Hin. }
  apply NoDup_cons in Hnd as [Hk' Hnd].
  destruct (String.eqb_spec k' k) as [->|Hne].
  - apply elem_of_cons in Hin as [[= ->]|Hin]; [done|].
    exfalso. apply Hk'. apply list_elem_of_fmap. by exists (k, v).
  - apply elem_of_cons in Hin as [[= ? ?]|Hin]; [congruence|]. by apply IH.
Qed.

Lemma movement_params_returns (g : Globals) (c : Command) :
  (∀ x, is_Some (float_format x (precision_string g))) →
  is_Some (movement_params g c).
Proof.
  intros Hfmt. rewrite movement_params_unfold.
  unfold spec_movement_params, length_item, speed_item.
  repeat match goal with
         | |- context [param_lookup ?p ?ps] => destruct (param_lookup p ps); simpl
         | |- context [float_gt_zero ?x] => destruct (float_gt_zero x); simpl
         | |- context [float_format ?x ?s] =>
             let E := fresh "E" in destruct (Hfmt x) as [? E]; rewrite E; simpl
         end;
    by eexists.
Qed.

Lemma length_item_entry (g : Globals) (c : Command) (letter : string) (its : list string) :
  NoDup (Parameters c).*1 →
  length_item g c letter = Some its → length_entry g c letter its.
Proof.
  unfold length_item, length_entry. intros Hnd Hits. split.
  - intros Hnot. destruct (param_lookup letter (Parameters c)) as [v|] eqn:E.
    + exfalso. apply Hnot, list_elem_of_fmap. exists (letter, v).
      split; [done|by apply param_lookup_Some].
    + by injection Hits as <-.
  - intros v Hin. rewrite (param_lookup_elem letter v _ Hnd Hin) in Hits.
    destruct (float_format _ _) as [s|] eqn:Hs; simpl in Hits; [|done].
    injection Hits as <-. exists s. split; [by apply printed_by_format|done].
Qed.

Lemma speed_item_entry (g : Globals) (c : Command) (its : list string) :
  NoDup (Parameters c).*1 →
  speed_item g c = Some its → speed_entry g c its.
Proof.
  unfold speed_item, speed_entry. intros Hnd Hits. split.
  - intros Hnot. destruct (param_lookup "F" (Parameters c)) as [v|] eqn:E.
    + exfalso. apply Hnot, list_elem_of_fmap. exists ("F", v).
      split; [done|by apply param_lookup_Some].
    + by injection Hits as <-.
  - intros v Hin. rewrite (param_lookup_elem "F" v _ Hnd Hin) in Hits.
    simpl in Hits. split; intros Hpos; rewrite Hpos in Hits.
    + by injection Hits as <-.
    + destruct (float_format _ _) as [s|] eqn:Hs; simpl in Hits; [|done].
      injection Hits as <-. exists s. split; [by apply printed_by_format|done].
Qed.

(** C4.  The items of the line of a command under the generic rule are the
    contributions of X, Y, F, I and J, in this order.  A length letter the
    command carries contributes the letter and its value converted to the
    active length unit, always; F contributes only when the feed converted
    to the active speed unit is above zero; every value is printed by
    [format] under [.<PRECISION>f], with exactly that many fractional
    digits when the precision is a numeral.  The loop returns whenever
    [format] accepts that specification. *)
Theorem movement_params_in_fixed_order (g : Globals) (c : Command) :
  NoDup (Parameters c).*1 →
  (∀ outstring,
     movement_params g c = Some outstring →
     ∃ x y f i j,
       outstring = x ++ y ++ f ++ i ++ j
       ∧ length_entry g c "X" x
       ∧ length_entry g c "Y" y
       ∧ speed_entry g c f
       ∧ length_entry g c "I" i
       ∧ length_entry g c "J" j)
  ∧ ((∀ x, is_Some (float_format x ("." +:+ PRECISION g +:+ "f"))) →
     is_Some (movement_params g c)).
Proof.
  intros Hnd. split.
  - intros outstring. rewrite movement_params_unfold. unfold spec_movement_params.
    destruct (length_item g c "X") as [x|] eqn:Ex; simpl; [|done].
    destruct (length_item g c "Y") as [y|] eqn:Ey; simpl; [|done].
    destruct (speed_item g c) as [f|] eqn:Ef; simpl; [|done].
    destruct (length_item g c "I") as [i|] eqn:Ei; simpl; [|done].
    destruct (length_item g c "J") as [j|] eqn:Ej; simpl; [|done].
    intros [= <-]. exists x, y, f, i, j.
    split; [done|].
    split; [by apply length_item_entry|]. split; [by apply length_item_entry|].
    split; [by apply speed_item_entry|]. split; by apply length_item_entry.
  - intros Hfmt. apply movement_params_returns. exact Hfmt.
Qed.

Lemma torch_control_cases (g : Globals) (command : string) (st : EngineState) :
  (command ∈ ["G1"; "G2"; "G3"] → cutting st = false →
     torch_control g command st
     = set_cutting true (emit (G4_line g) (emit M7_line st)))
  ∧ (command = "G0" → cutting st = true →
     torch_control g command st = set_cutting false (emit M8_line st))
  ∧ (¬ (command ∈ ["G1"; "G2"; "G3"] ∧ cutting st = false) →
     ¬ (command = "G0" ∧ cutting st = true) →
     torch_control g command st = st).
Proof.
  unfold torch_control. repeat split.
  - intros Hin Hc. by rewrite bool_decide_eq_true_2, Hc.
  - intros -> Hc. rewrite Hc. reflexivity.
  - intros H1 H2.
    destruct (bool_decide_reflect (command ∈ ["G1"; "G2"; "G3"])) as [Hin|Hin];
      destruct (cutting st) eqn:Hc; simpl; try done.
    + destruct (String.eqb_spec command "G0") as [->|]; [|done].
      exfalso. by apply H2.
    + exfalso. by apply H1.
    + destruct (String.eqb_spec command "G0") as [->|]; [|done].
      exfalso. by apply H2.
    + by rewrite andb_false_r.
Qed.

(** C3.  Under the generic rule: a cutting code (G1, G2, G3) met with the
    torch off puts the torch-on line and the dwell line with the pierce
    delay before the command's own line and engages the torch; G0 met with
    the torch on puts the torch-off line before the command's own line and
    disengages it; in every other case nothing is injected and the flag
    keeps its value. *)
Theorem torch_transition_before_own_line
    (g : Globals) (st : EngineState) (c : Command) (outstring : list string) :
  generic_rule c = true →
  movement_params g c = Some outstring →
  ∃ st',
    process_command g st c = Some st'
    ∧ (Name c ∈ ["G1"; "G2"; "G3"] → cutting st = false →
         out st' = out st
                   ++ [ "M7 (Torch ON)";
                        "G4 P" +:+ float_str (PIERCE_DELAY g) +:+ " (Pierce delay)" ]
                   ++ own_line c outstring
         ∧ cutting st' = true)
    ∧ (Name c = "G0" → cutting st = true →
         out st' = out st ++ ["M8 (Torch OFF)"] ++ own_line c outstring
         ∧ cutting st' = false)
    ∧ (¬ (Name c ∈ ["G1"; "G2"; "G3"] ∧ cutting st = false) →
       ¬ (Name c = "G0" ∧ cutting st = true) →
         out st' = out st ++ own_line c outstring
         ∧ cutting st' = cutting st).
Proof.
  intros Hgen Hps. eexists. split.
  { rewrite process_command_generic by done. rewrite Hps. reflexivity. }
  destruct (torch_control_cases g (Name c) st) as (Hon & Hoff & Hnone).
  split; [|split]; intros H1 H2.
  - rewrite (Hon H1 H2). destruct outstring; simpl; by rewrite <- ?app_assoc.
  - rewrite (Hoff H1 H2). destruct outstring; simpl; by rewrite <- ?app_assoc.
  - rewrite (Hnone H1 H2). destruct outstring; simpl; by rewrite ?app_nil_r.
Qed.

Lemma process_command_marker (g : Globals) (st : EngineState) (c : Command) :
  contains "CustomCommand" (Name c) = true ∨ Name c ∈ ["M100"; "M101"] →
  process_command g st c =
    items ← format_items (precision_string g) (Parameters c);
    Some (emit (marker_line c items) st).
Proof.
  intros H. unfold process_command, marker_line.
  destruct (contains "CustomCommand" (Name c)) eqn:Hc; [done|].
  destruct H as [|Hin]; [done|]. rewrite bool_decide_eq_true_2 by done.
  destruct (Parameters c) as [|kv ps] eqn:Hps; [done|].
  destruct (format_items _ (kv :: ps)) as [[|i its]|] eqn:Hits; try done.
  apply mapM_Some_1 in Hits. inversion Hits.
Qed.

(** A tracked letter of a command under the generic rule reaches the line
    through FreeCAD's conversion to the active unit. *)
Lemma movement_items_converted (g : Globals) (c : Command) (outstring : list string)
    (p : string) (v : float) :
  movement_params g c = Some outstring →
  param_lookup p (Parameters c) = Some v →
  (p ∈ ["X"; "Y"; "I"; "J"] →
     ∃ s, float_format (getValueAs Length v (UNIT_FORMAT g)) (precision_string g) = Some s
          ∧ p +:+ s ∈ outstring)
  ∧ (p = "F" → float_gt_zero (getValueAs Velocity v (UNIT_SPEED_FORMAT g)) = true →
     ∃ s, float_format (getValueAs Velocity v (UNIT_SPEED_FORMAT g)) (precision_string g) = Some s
          ∧ p +:+ s ∈ outstring).
Proof.
  rewrite movement_params_unfold. unfold spec_movement_params.
  intros Hps Hv.
  destruct (length_item g c "X") as [x|] eqn:Ex; simpl in Hps; [|done].
  destruct (length_item g c "Y") as [y|] eqn:Ey; simpl in Hps; [|done].
  destruct (speed_item g c) as [f|] eqn:Ef; simpl in Hps; [|done].
  destruct (length_item g c "I") as [i|] eqn:Ei; simpl in Hps; [|done].
  destruct (length_item g c "J") as [j|] eqn:Ej; simpl in Hps; [|done].
  injection Hps as <-.
  assert (∀ l its, length_item g c l = Some its → p = l →
            ∃ s, float_format (getValueAs Length v (UNIT_FORMAT g)) (precision_string g) = Some s
                 ∧ p +:+ s ∈ its) as Hlen.
  { intros l its E ->. unfold length_item in E. rewrite Hv in E.
    destruct (float_format _ _) as [s|]; simpl in E; [|done].
    injection E as <-. exists s. split; [done|by left]. }
  split.
  - intros Hin. repeat (apply elem_of_cons in Hin as [Hp | Hin]).
    + destruct (Hlen _ _ Ex Hp) as (s & ? & ?). exists s. split; [done|].
      rewrite !elem_of_app. tauto.
    + destruct (Hlen _ _ Ey Hp) as (s & ? & ?). exists s. split; [done|].
      rewrite !elem_of_app. tauto.
    + destruct (Hlen _ _ Ei Hp) as (s & ? & ?). exists s. split; [done|].
      rewrite !elem_of_app. tauto.
    + destruct (Hlen _ _ Ej Hp) as (s & ? & ?). exists s. split; [done|].
      rewrite !elem_of_app. tauto.
    + by apply elem_of_nil in Hin.
  - intros -> Hpos. unfold speed_item in Ef. rewrite Hv in Ef. simpl in Ef.
    rewrite Hpos in Ef.
    destruct (float_format _ _) as [s|]; simpl in Ef; [|done].
    injection Ef as <-. exists s. split; [done|].
    rewrite !elem_of_app. right. right. left. by left.
Qed.

(** C10.  For a custom marker and for M100 and M101 the unit system plays
    no part: two configurations with the same precision give the same
    result, and the items of the line are the raw values as [format] prints
    them.  Under the generic rule, by contrast, a tracked letter reaches
    the line through the conversion to the active length or speed unit. *)
Theorem marker_values_not_converted (g g' : Globals) (st : EngineState) (c : Command) :
  contains "CustomCommand" (Name c) = true ∨ Name c ∈ ["M100"; "M101"] →
  PRECISION g' = PRECISION g →
  process_command g' st c = process_command g st c
  ∧ (∀ st', process_command g st c = Some st' →
       ∃ items, raw_items g c items
                ∧ out st' = out st ++ [marker_line c items]
                ∧ cutting st' = cutting st)
  ∧ (∀ c2 outstring p v,
       movement_params g c2 = Some outstring →
       param_lookup p (Parameters c2) = Some v →
       (p ∈ ["X"; "Y"; "I"; "J"] →
          ∃ s, float_format (getValueAs Length v (UNIT_FORMAT g)) (precision_string g) = Some s
               ∧ p +:+ s ∈ outstring)
       ∧ (p = "F" → float_gt_zero (getValueAs Velocity v (UNIT_SPEED_FORMAT g)) = true →
          ∃ s, float_format (getValueAs Velocity v (UNIT_SPEED_FORMAT g)) (precision_string g) = Some s
               ∧ p +:+ s ∈ outstring)).
Proof.
  intros Hm Hprec. split; [|split].
  - rewrite !process_command_marker by done.
    unfold precision_string. by rewrite Hprec.
  - intros st'. rewrite process_command_marker by done.
    destruct (format_items _ _) as [items|] eqn:Hits; simpl; [|done].
    intros [= <-]. exists items. split; [by apply format_items_raw|done].
  - intros c2 outstring p v. apply movement_items_converted.
Qed.

(** ** Strings *)

Lemma app_cons (a : ascii) (s t : string) : String a s +:+ t = String a (s +:+ t).
Proof. reflexivity. Qed.

Lemma app_empty_l (s : string) : "" +:+ s = s.
Proof. reflexivity. Qed.

Lemma app_empty_r (s : string) : s +:+ "" = s.
Proof. induction s as [|a s IH]; [done|]. by rewrite app_cons, IH. Qed.

Lemma string_app_assoc (s t u : string) : (s +:+ t) +:+ u = s +:+ t +:+ u.
Proof. induction s as [|a s IH]; [done|]. by rewrite !app_cons, IH. Qed.

Lemma join_cons (sep t : string) (ts : list string) :
  join sep (t :: ts) = t +:+ match ts with [] => "" | _ :: _ => sep +:+ join sep ts end.
Proof. destruct ts; simpl; [by rewrite app_empty_r|done]. Qed.

Lemma text_of_cons (l : string) (ls : list string) :
  text_of (l :: ls) = l +:+ LF +:+ text_of ls.
Proof.
  unfold text_of. destruct ls as [|l' ls]; simpl.
  - by rewrite app_empty_r.
  - by rewrite app_empty_l, string_app_assoc.
Qed.

Lemma text_of_app (ls1 ls2 : list string) :
  text_of (ls1 ++ ls2) = text_of ls1 +:+ text_of ls2.
Proof.
  induction ls1 as [|l ls1 IH]; [done|].
  change ((l :: ls1) ++ ls2) with (l :: (ls1 ++ ls2)).
  by rewrite !text_of_cons, IH, !string_app_assoc.
Qed.

(** The lines of the text of a buffer are the lines of the buffer, when no
    line holds a line feed. *)
Lemma text_lines_from_line (cur l rest : string) :
  contains LF l = false →
  text_lines_from cur (l +:+ LF +:+ rest) = (cur +:+ l) :: text_lines_from "" rest.
Proof.
  revert cur. induction l as [|a l IH]; intros cur Hl.
  - rewrite app_empty_l, app_empty_r. reflexivity.
  - rewrite app_cons. simpl in Hl. simpl text_lines_from.
    destruct (Ascii.eqb_spec a "010") as [->|Hne].
    { by destruct l. }
    rewrite IH.
    + by rewrite string_app_assoc.
    + destruct l; simpl in *; [done|].
      apply orb_false_iff in Hl as [_ Hl]. done.
Qed.

Lemma text_lines_text_of (ls : list string) :
  Forall (λ l, contains LF l = false) ls → text_lines (text_of ls) = ls.
Proof.
  unfold text_lines. induction 1 as [|l ls Hl _ IH]; [done|].
  rewrite text_of_cons, text_lines_from_line by done. by rewrite IH.
Qed.

(** The text [parse] returns is the text of the buffer of lines, and its
    lines are those of the buffer when none of them holds a line feed. *)
Lemma parse_text_lines (g : Globals) (pathobj : PathObject) (text : string) :
  parse g pathobj = Some text →
  ∃ cmds ls, Path pathobj = Some cmds
             ∧ parse_lines g cmds = Some ls
             ∧ text = text_of ls
             ∧ (Forall (λ l, contains LF l = false) ls → text_lines text = ls).
Proof.
  unfold parse. destruct (Path pathobj) as [cmds|]; simpl; [|done].
  destruct (parse_lines g cmds) as [ls|] eqn:Hls; simpl; [|done].
  intros [= <-]. exists cmds, ls.
  split; [done|]. split; [done|]. split; [done|]. apply text_lines_text_of.
Qed.

(** ** The torch signal of a buffer *)

Lemma torch_trace_app (b : bool) (ls1 ls2 : list string) :
  torch_trace b (ls1 ++ ls2) = b' ← torch_trace b ls1; torch_trace b' ls2.
Proof.
  revert b. induction ls1 as [|l ls1 IH]; intros b; simpl; [done|].
  destruct (String.eqb l M7_line); [destruct b; [done|apply IH]|].
  destruct (String.eqb l M8_line); [destruct b; [apply IH|done]|].
  apply IH.
Qed.

Lemma torch_trace_counts (b b' : bool) (ls : list string) :
  torch_trace b ls = Some b' →
  count_line M7_line ls + (if b then 1 else 0)
  = count_line M8_line ls + (if b' then 1 else 0).
Proof.
  revert b. induction ls as [|l ls IH]; intros b; simpl.
  { intros [= ->]. done. }
  destruct (String.eqb_spec l M7_line) as [->|Hon].
  { change (String.eqb M7_line M8_line) with false.
    destruct b; [done|]. intros H. apply IH in H. lia. }
  destruct (String.eqb_spec l M8_line) as [->|Hoff].
  { destruct b; [|done]. intros H. apply IH in H. lia. }
  intros H. apply IH in H. lia.
Qed.

Lemma torch_trace_prefix (b b' : bool) (p ls : list string) :
  torch_trace b ls = Some b' → p `prefix_of` ls → is_Some (torch_trace b p).
Proof.
  intros H [k ->]. rewrite torch_trace_app in H.
  destruct (torch_trace b p); [by eexists|done].
Qed.

(** A buffer that reads as a torch signal from the torch off never has more
    than one torch-on line pending, and never a torch-off line too many. *)
Lemma torch_trace_bounds (b' : bool) (ls : list string) :
  torch_trace false ls = Some b' →
  ∀ p, p `prefix_of` ls →
    count_line M8_line p ≤ count_line M7_line p ≤ count_line M8_line p + 1.
Proof.
  intros H p Hp. destruct (torch_trace_prefix _ _ _ _ H Hp) as [b Hb].
  apply torch_trace_counts in Hb. destruct b; lia.
Qed.

Lemma torch_trace_neutral (b : bool) (ls : list string) (l : string) :
  l ≠ M7_line → l ≠ M8_line →
  torch_trace b (ls ++ [l]) = torch_trace b ls.
Proof.
  intros H7 H8. rewrite torch_trace_app.
  destruct (torch_trace b ls) as [b'|]; simpl; [|done].
  apply String.eqb_neq in H7, H8. by rewrite H7, H8.
Qed.

Lemma space_letter_own (n : string) (ch : ascii) (rest : string) :
  is_tracked ch = true → space_letter (n +:+ " " +:+ String ch rest) = true.
Proof.
  intros Hch. induction n as [|a n IH].
  - rewrite app_empty_l, app_cons. simpl. by rewrite Hch.
  - rewrite app_cons. simpl. rewrite IH. apply orb_true_r.
Qed.

(** The items of the movement parameters start with a tracked letter. *)
Lemma movement_params_tracked (g : Globals) (c : Command) (outstring : list string) :
  movement_params g c = Some outstring →
  Forall (λ t, ∃ ch s, is_tracked ch = true ∧ t = String ch s) outstring.
Proof.
  rewrite movement_params_unfold. unfold spec_movement_params.
  assert (∀ l its, l ∈ ["X"; "Y"; "I"; "J"] → length_item g c l = Some its →
            Forall (λ t, ∃ ch s, is_tracked ch = true ∧ t = String ch s) its) as Hlen.
  { intros l its Hl. unfold length_item.
    destruct (param_lookup l (Parameters c)) as [v|]; [|by intros [= <-]].
    destruct (float_format _ _) as [s|]; simpl; [|done]. intros [= <-].
    repeat (apply elem_of_cons in Hl as [-> | Hl]);
      [constructor; [eexists _, _; split; [|reflexivity]; by vm_compute|done] ..|].
    by apply elem_of_nil in Hl. }
  assert (∀ its, speed_item g c = Some its →
            Forall (λ t, ∃ ch s, is_tracked ch = true ∧ t = String ch s) its) as Hsp.
  { intros its. unfold speed_item.
    destruct (param_lookup "F" (Parameters c)) as [v|]; [|by intros [= <-]].
    simpl. destruct (float_gt_zero _); [|by intros [= <-]].
    destruct (float_format _ _) as [s|]; simpl; [|done]. intros [= <-].
    constructor; [eexists _, _; split; [|reflexivity]; by vm_compute|done]. }
  intros H.
  destruct (length_item g c "X") as [x|] eqn:Ex; simpl in H; [|done].
  destruct (length_item g c "Y") as [y|] eqn:Ey; simpl in H; [|done].
  destruct (speed_item g c) as [f|] eqn:Ef; simpl in H; [|done].
  destruct (length_item g c "I") as [i|] eqn:Ei; simpl in H; [|done].
  destruct (length_item g c "J") as [j|] eqn:Ej; simpl in H; [|done].
  injection H as <-. rewrite !Forall_app.
  repeat split; (eapply Hlen; [|done]) || by apply Hsp.
  all: set_solver.
Qed.

(** The line of a command under the generic rule is no torch line. *)
Lemma own_line_neutral (g : Globals) (c : Command) (outstring : list string) (l : string) :
  movement_params g c = Some outstring →
  l ∈ own_line c outstring → l ≠ M7_line ∧ l ≠ M8_line.
Proof.
  intros Hps Hl. apply movement_params_tracked in Hps.
  destruct Hps as [|t ts (ch & s & Hch & ->) _]; unfold own_line in Hl.
  { by apply elem_of_nil in Hl. }
  apply list_elem_of_singleton in Hl as ->.
  assert (space_letter (Name c +:+ " " +:+ join " " (String ch s :: ts)) = true) as Hsp.
  { rewrite join_cons, app_cons. by apply space_letter_own. }
  split; intros E; rewrite E in Hsp; by vm_compute in Hsp.
Qed.

(** Neither is the line of a custom marker or of a special directive. *)
Lemma marker_line_neutral (c : Command) (items : list string) :
  contains "CustomCommand" (Name c) = true ∨ Name c ∈ ["M100"; "M101"] →
  marker_line c items ≠ M7_line ∧ marker_line c items ≠ M8_line.
Proof.
  unfold marker_line. intros H.
  destruct (contains "CustomCommand" (Name c)) eqn:Hc.
  { split; intros E; rewrite !app_cons in E; discriminate E. }
  destruct H as [|Hin]; [done|].
  repeat (apply elem_of_cons in Hin as [-> | Hin]);
    [destruct items; split; intros E; rewrite !app_cons in E; discriminate E ..|].
  by apply elem_of_nil in Hin.
Qed.

Lemma G4_line_neutral (g : Globals) : G4_line g ≠ M7_line ∧ G4_line g ≠ M8_line.
Proof. unfold G4_line. split; intros E; rewrite !app_cons in E; discriminate E. Qed.

Lemma command_kind (c : Command) :
  generic_rule c = true
  ∨ contains "CustomCommand" (Name c) = true
  ∨ Name c ∈ ["M100"; "M101"]
  ∨ (Name c ∈ ["M3"; "M4"; "M5"; "G17"; "G18"; "G19"; "G43"]).
Proof.
  unfold generic_rule.
  destruct (contains "CustomCommand" (Name c)); [tauto|].
  destruct (bool_decide_reflect (Name c ∈ ["M100"; "M101"])); [tauto|].
  destruct (bool_decide_reflect (Name c ∈ ["M3"; "M4"; "M5"; "G17"; "G18"; "G19"; "G43"]));
    tauto.
Qed.

Lemma torch_control_trace (g : Globals) (command : string) (st : EngineState) (b0 : bool) :
  torch_trace b0 (out st) = Some (cutting st) →
  torch_trace b0 (out (torch_control g command st))
  = Some (cutting (torch_control g command st)).
Proof.
  intros H. unfold torch_control.
  destruct (bool_decide (command ∈ ["G1"; "G2"; "G3"]) && negb (cutting st)) eqn:E1.
  { apply andb_prop in E1 as [_ Hc]. apply negb_true_iff in Hc.
    simpl. rewrite <- app_assoc, torch_trace_app, H, Hc. reflexivity. }
  destruct (String.eqb command "G0" && cutting st) eqn:E2; [|done].
  apply andb_prop in E2 as [_ Hc].
  simpl. rewrite torch_trace_app, H, Hc. reflexivity.
Qed.

(** One command keeps the buffer a torch signal that ends in the torch flag. *)
Lemma process_command_trace (g : Globals) (st st' : EngineState) (c : Command) (b0 : bool) :
  process_command g st c = Some st' →
  torch_trace b0 (out st) = Some (cutting st) →
  torch_trace b0 (out st') = Some (cutting st').
Proof.
  intros Hpc Htr.
  destruct (command_kind c) as [Hgen | [Hcus | [Hsp | Hig]]].
  - rewrite process_command_generic in Hpc by done.
    destruct (movement_params g c) as [outstring|] eqn:Hps; simpl in Hpc; [|done].
    injection Hpc as <-.
    pose proof (torch_control_trace g (Name c) st b0 Htr) as Htc.
    destruct outstring as [|t ts] eqn:Ho; [done|]. simpl.
    destruct (own_line_neutral g c (t :: ts) (Name c +:+ " " +:+ join " " (t :: ts)) Hps)
      as [H7 H8]; [by left|].
    by rewrite torch_trace_neutral.
  - rewrite process_command_marker in Hpc by auto.
    destruct (format_items _ _) as [items|]; simpl in Hpc; [|done].
    injection Hpc as <-. simpl.
    destruct (marker_line_neutral c items) as [H7 H8]; [auto|].
    by rewrite torch_trace_neutral.
  - rewrite process_command_marker in Hpc by auto.
    destruct (format_items _ _) as [items|]; simpl in Hpc; [|done].
    injection Hpc as <-. simpl.
    destruct (marker_line_neutral c items) as [H7 H8]; [auto|].
    by rewrite torch_trace_neutral.
  - rewrite process_command_ignored in Hpc by done. by injection Hpc as <-.
Qed.

(** ** The torch flag along a run of commands *)

Lemma run_commands_trace (g : Globals) (cmds : list Command) (st st' : EngineState) (b0 : bool) :
  run_commands g st cmds = Some st' →
  torch_trace b0 (out st) = Some (cutting st) →
  torch_trace b0 (out st') = Some (cutting st').
Proof.
  unfold run_commands. revert st. induction cmds as [|c cmds IH]; intros st; simpl.
  { by intros [= <-]. }
  destruct (process_command g st c) as [st1|] eqn:Hpc; simpl; [|done].
  intros Hrun Htr. apply (IH st1 Hrun). by eapply process_command_trace.
Qed.

Lemma parse_lines_trace (g : Globals) (cmds : list Command) (ls : list string) :
  parse_lines g cmds = Some ls → torch_trace false ls = Some false.
Proof.
  unfold parse_lines.
  destruct (run_commands g parse_start cmds) as [st|] eqn:Hrun; simpl; [|done].
  intros [= <-].
  pose proof (run_commands_trace g cmds parse_start st false Hrun eq_refl) as Htr.
  unfold final_safety. destruct (cutting st) eqn:Hc; [|done].
  by rewrite torch_trace_app, Htr.
Qed.

Lemma run_lines_trace (g : Globals) (run : list (list Command)) (lss : list (list string)) :
  mapM (parse_lines g) run = Some lss → torch_trace false (concat lss) = Some false.
Proof.
  rewrite mapM_Some. induction 1 as [|cmds ls run lss Hp _ IH]; [done|].
  simpl. rewrite torch_trace_app. by rewrite (parse_lines_trace _ _ _ Hp).
Qed.

Lemma torch_control_cutting (g : Globals) (command : string) (st : EngineState) :
  cutting (torch_control g command st)
  = if bool_decide (command ∈ ["G1"; "G2"; "G3"]) then true
    else if String.eqb command "G0" then false
    else cutting st.
Proof.
  unfold torch_control.
  destruct (bool_decide_reflect (command ∈ ["G1"; "G2"; "G3"])) as [Hin|Hin].
  - destruct (cutting st) eqn:Hc; simpl; [|done].
    destruct (String.eqb_spec command "G0") as [->|]; [|done].
    exfalso. repeat (apply elem_of_cons in Hin as [Hin|Hin]; [discriminate Hin|]).
    by apply elem_of_nil in Hin.
  - simpl. destruct (String.eqb command "G0"); simpl; [|done].
    destruct (cutting st) eqn:Hc; simpl; [done|]. by rewrite Hc.
Qed.

Lemma process_command_cutting (g : Globals) (st st' : EngineState) (c : Command) :
  process_command g st c = Some st' →
  cutting st' = torch_after (cutting st) [c].
Proof.
  intros Hpc. unfold torch_after. simpl.
  destruct (generic_rule c) eqn:Hgen.
  - rewrite process_command_generic in Hpc by done.
    destruct (movement_params g c) as [outstring|]; simpl in Hpc; [|done].
    injection Hpc as <-. rewrite <- (torch_control_cutting g).
    by destruct outstring.
  - destruct (command_kind c) as [Hg | [Hcus | [Hsp | Hig]]].
    + congruence.
    + rewrite process_command_marker in Hpc by auto.
      destruct (format_items _ _); simpl in Hpc; [|done]. by injection Hpc as <-.
    + rewrite process_command_marker in Hpc by auto.
      destruct (format_items _ _); simpl in Hpc; [|done]. by injection Hpc as <-.
    + rewrite process_command_ignored in Hpc by done. by injection Hpc as <-.
Qed.

Lemma run_commands_cutting (g : Globals) (cmds : list Command) (st st' : EngineState) :
  run_commands g st cmds = Some st' →
  cutting st' = torch_after (cutting st) cmds.
Proof.
  unfold run_commands. revert st. induction cmds as [|c cmds IH]; intros st; simpl.
  { by intros [= <-]. }
  destruct (process_command g st c) as [st1|] eqn:Hpc; simpl; [|done].
  intros Hrun. rewrite (IH st1 Hrun), (process_command_cutting _ _ _ _ Hpc).
  reflexivity.
Qed.

(** ** [parse] returns when [format] accepts the precision *)

Lemma process_command_returns (g : Globals) (st : EngineState) (c : Command) :
  (∀ x, is_Some (float_format x (precision_string g))) →
  is_Some (process_command g st c).
Proof.
  intros Hfmt.
  destruct (command_kind c) as [Hgen | [Hcus | [Hsp | Hig]]].
  - rewrite process_command_generic by done.
    destruct (movement_params_returns g c Hfmt) as [outstring ->]. by eexists.
  - rewrite process_command_marker by auto.
    destruct (format_items_total (precision_string g) (Parameters c)) as [items ->];
      [auto|by eexists].
  - rewrite process_command_marker by auto.
    destruct (format_items_total (precision_string g) (Parameters c)) as [items ->];
      [auto|by eexists].
  - rewrite process_command_ignored by done. by eexists.
Qed.

Lemma parse_lines_returns (g : Globals) (cmds : list Command) :
  (∀ x, is_Some (float_format x (precision_string g))) →
  is_Some (parse_lines g cmds).
Proof.
  intros Hfmt. unfold parse_lines, run_commands.
  generalize parse_start. induction cmds as [|c cmds IH]; intros st; simpl.
  { by eexists. }
  destruct (process_command_returns g st c Hfmt) as [st' ->]. simpl. apply IH.
Qed.

(** C2 (as amended).  In the lines the engine produces for the objects of a
    run, at every prefix the torch-on lines exceed the torch-off lines by at
    most one (and are never fewer), and the two counts are equal at the end
    of every object, hence at the end of the run of objects. *)
Theorem torch_closure_of_engine_output
    (g : Globals) (run : list (list Command)) (lss : list (list string)) :
  mapM (parse_lines g) run = Some lss →
  (∀ p, p `prefix_of` concat lss →
     count_line M8_line p ≤ count_line M7_line p ≤ count_line M8_line p + 1)
  ∧ count_line M7_line (concat lss) = count_line M8_line (concat lss)
  ∧ Forall (λ ls, count_line M7_line ls = count_line M8_line ls) lss.
Proof.
  intros Hrun. split; [|split].
  - by apply (torch_trace_bounds false), run_lines_trace with g run.
  - pose proof (torch_trace_counts _ _ _ (run_lines_trace _ _ _ Hrun)). lia.
  - apply mapM_Some_1 in Hrun.
    induction Hrun as [|cmds ls run lss Hp _ IH]; constructor; [|done].
    pose proof (torch_trace_counts _ _ _ (parse_lines_trace _ _ _ Hp)). lia.
Qed.

(** ** Objects are translated one by one *)

Lemma export_object_alone (g : Globals) (gcode : string) (obj : PathObject) :
  export_object g gcode obj = (λ t, gcode +:+ t) <$> export_object g "" obj.
Proof.
  unfold export_object. destruct (inactive obj).
  { simpl. by rewrite app_empty_r. }
  destruct (parse g obj) as [body|]; simpl; [|done].
  destruct (OUTPUT_COMMENTS g); by rewrite ?app_empty_l, ?string_app_assoc.
Qed.

Lemma concat_empty_cons (t : string) (ts : list string) :
  String.concat "" (t :: ts) = t +:+ String.concat "" ts.
Proof. destruct ts; simpl; [by rewrite app_empty_r|done]. Qed.

Lemma export_objects_alone (g : Globals) (gcode : string) (objs : list PathObject) :
  for_each (export_object g) gcode objs
  = (λ ts, gcode +:+ String.concat "" ts) <$> mapM (export_object g "") objs.
Proof.
  revert gcode. induction objs as [|obj objs IH]; intros gcode.
  { simpl. by rewrite app_empty_r. }
  change (for_each (export_object g) gcode (obj :: objs))
    with (gcode' ← export_object g gcode obj; for_each (export_object g) gcode' objs).
  rewrite export_object_alone.
  change (mapM (export_object g "") (obj :: objs))
    with (t ← export_object g "" obj; ts ← mapM (export_object g "") objs; Some (t :: ts)).
  destruct (export_object g "" obj) as [t|]; simpl; [|done].
  rewrite IH. destruct (mapM (export_object g "") objs) as [ts|]; simpl; [|done].
  change (match ts with
          | [] => t
          | _ :: _ => t +:+ "" +:+ String.concat "" ts
          end) with (String.concat "" (t :: ts)).
  by rewrite concat_empty_cons, string_app_assoc.
Qed.

(** C1 (as amended).  The torch flag belongs to one object: whatever came
    before, an object contributes the text it gives when translated alone,
    its commands run from the torch off, and the safety torch-off line
    closes the lines of an object exactly when the torch is engaged after
    the last command of that object. *)
Theorem torch_flag_is_per_object (g : Globals) :
  (∀ gcode objs,
     for_each (export_object g) gcode objs
     = (λ ts, gcode +:+ String.concat "" ts) <$> mapM (export_object g "") objs)
  ∧ (∀ cmds,
       parse_lines g cmds
       = st ← run_commands g parse_start cmds;
         Some (out st ++ if torch_after false cmds then [M8_line] else [])).
Proof.
  split; [apply export_objects_alone|].
  intros cmds. unfold parse_lines, final_safety.
  destruct (run_commands g parse_start cmds) as [st|] eqn:Hrun; simpl; [|done].
  pose proof (run_commands_cutting _ _ _ _ Hrun) as Hc.
  change (cutting parse_start) with false in Hc. rewrite <- Hc.
  destruct (cutting st); by rewrite ?app_nil_r.
Qed.

(** ** The resolver *)

Lemma apply_flags_applied (args : Args) (g : Globals) :
  flags_applied args g (apply_flags args g).
Proof.
  unfold flags_applied, apply_flags.
  destruct (no_header args), (no_comments args), (line_numbers args),
    (no_show_editor args), (truthy (precision args)), (inches args),
    (preamble args) as [p|], (postamble args) as [q|];
    try destruct (truthy p); try destruct (truthy q); simpl; done.
Qed.

Lemma processArguments_fails (parsed : option Args) (g : Globals) :
  (processArguments parsed g).1 = false →
  (parsed = None ∧ (processArguments parsed g).2 = g)
  ∨ (∃ args, parsed = Some args
       ∧ truthy (pierce_delay args) = true
       ∧ float_of_string (pierce_delay args) = None
       ∧ (processArguments parsed g).2 = apply_flags args g).
Proof.
  destruct parsed as [args|]; simpl; [|by left].
  destruct (truthy (pierce_delay args)) eqn:Ht; simpl; [|done].
  destruct (float_of_string (pierce_delay args)) eqn:Hf; simpl; [done|].
  intros _. right. by exists args.
Qed.

(** C5 (as amended).  When resolution fails, [export] returns no text, and
    the configuration is unchanged if the command line itself could not be
    parsed; but when it is the pierce delay that does not parse, all the
    other options of the call stay applied to the globals, and only the
    pierce delay keeps its previous value. *)
Theorem failed_resolution_keeps_earlier_options
    (objectslist : list PathObject) (parsed : option Args) (g : Globals) :
  (processArguments parsed g).1 = false →
  (export objectslist parsed g).1 = Some None
  ∧ (export objectslist parsed g).2 = (processArguments parsed g).2
  ∧ ((parsed = None ∧ (processArguments parsed g).2 = g)
     ∨ (∃ args, parsed = Some args
          ∧ truthy (pierce_delay args) = true
          ∧ float_of_string (pierce_delay args) = None
          ∧ flags_applied args g (processArguments parsed g).2)).
Proof.
  intros Hfail. unfold export.
  destruct (processArguments parsed g) as [ok g'] eqn:Hpa. simpl in Hfail. subst ok.
  simpl. split; [done|]. split; [done|].
  pose proof (processArguments_fails parsed g) as H. rewrite Hpa in H.
  destruct (H eq_refl) as [[-> Hg] | (args & -> & Ht & Hf & Hg)]; [by left|].
  right. exists args. simpl in Hg. rewrite Hg. eauto using apply_flags_applied.
Qed.

(** C7 (the code at the failing input).  Whatever text the precision option
    carries, [processArguments] stores it unread and succeeds, as long as
    the pierce delay reads as a number. *)
Theorem unparsed_precision_is_accepted (args : Args) (g : Globals) :
  truthy (precision args) = true →
  (truthy (pierce_delay args) = true → is_Some (float_of_string (pierce_delay args))) →
  (processArguments (Some args) g).1 = true
  ∧ PRECISION (processArguments (Some args) g).2 = precision args.
Proof.
  intros Hp Hd. unfold processArguments.
  destruct (apply_flags_applied args g) as (_ & _ & _ & _ & Hprec & _).
  rewrite Hp in Hprec.
  destruct (truthy (pierce_delay args)); [|done].
  destruct (Hd eq_refl) as [d ->]. done.
Qed.

(** ** Line splitting *)

Lemma splitlines_from_line (keepends : bool) (cur l rest : string) :
  has_boundary l = false →
  splitlines_from keepends cur (l +:+ LF +:+ rest)
  = (cur +:+ l +:+ (if keepends then LF else ""))
      :: splitlines_from keepends "" rest.
Proof.
  revert cur. induction l as [|a l IH]; intros cur Hl.
  - rewrite !app_empty_l. unfold LF at 1. rewrite app_cons, app_empty_l.
    destruct keepends, rest; reflexivity.
  - simpl in Hl. apply orb_false_iff in Hl as [Ha Hl].
    rewrite app_cons. simpl splitlines_from. rewrite Ha, IH by done.
    by rewrite string_app_assoc.
Qed.

Lemma splitlines_text_of (keepends : bool) (ls : list string) :
  Forall (λ l, has_boundary l = false) ls →
  splitlines keepends (text_of ls)
  = map (λ l, l +:+ (if keepends then LF else "")) ls.
Proof.
  unfold splitlines. induction 1 as [|l ls Hl _ IH]; [done|].
  rewrite text_of_cons, splitlines_from_line by done. by rewrite IH.
Qed.

(** C6 (the code on well-formed postambles).  On a text whose lines each end
    in a line feed, the preamble rule emits the text as it is, one line
    feed per line; the postamble rule emits every line with the line feed
    it had and a second one after it. *)
Theorem postamble_lines_get_second_terminator (ls : list string) :
  Forall (λ l, has_boundary l = false) ls →
  preamble_text (text_of ls) = text_of ls
  ∧ postamble_text (text_of ls) = text_of (map (λ l, l +:+ LF) ls).
Proof.
  intros Hls. unfold preamble_text, postamble_text.
  rewrite !splitlines_text_of by done. split; [|done].
  f_equal. induction ls as [|l ls IH]; [done|].
  simpl. rewrite app_empty_r. f_equal. apply IH. by inversion Hls.
Qed.

(** * Further properties of the resolver *)

(** X1.  [processArguments] succeeds exactly when the command line was
    parsed and the pierce delay is empty or reads as a number: no other
    option can make it fail. *)
Theorem processArguments_succeeds_iff (parsed : option Args) (g : Globals) :
  (processArguments parsed g).1 = true
  ↔ ∃ args, parsed = Some args
            ∧ (pierce_delay args = "" ∨ is_Some (float_of_string (pierce_delay args))).
Proof.
  split.
  - destruct parsed as [args|]; simpl; [|done]. intros H. exists args. split; [done|].
    unfold truthy in H.
    destruct (String.eqb_spec (pierce_delay args) "") as [E|_]; [by left|]. simpl in H.
    destruct (float_of_string (pierce_delay args)); [right; by eexists|done].
  - intros (args & -> & [E | [d Hd]]); simpl.
    + by rewrite E.
    + rewrite Hd. by destruct (truthy (pierce_delay args)).
Qed.

Lemma Globals_eq (g1 g2 : Globals) :
  OUTPUT_HEADER g1 = OUTPUT_HEADER g2 →
  OUTPUT_COMMENTS g1 = OUTPUT_COMMENTS g2 →
  OUTPUT_LINE_NUMBERS g1 = OUTPUT_LINE_NUMBERS g2 →
  SHOW_EDITOR g1 = SHOW_EDITOR g2 →
  PRECISION g1 = PRECISION g2 →
  PREAMBLE g1 = PREAMBLE g2 →
  POSTAMBLE g1 = POSTAMBLE g2 →
  UNITS g1 = UNITS g2 →
  UNIT_SPEED_FORMAT g1 = UNIT_SPEED_FORMAT g2 →
  UNIT_FORMAT g1 = UNIT_FORMAT g2 →
  PIERCE_DELAY g1 = PIERCE_DELAY g2 →
  g1 = g2.
Proof. destruct g1, g2. simpl. by intros -> -> -> -> -> -> -> -> -> -> ->. Qed.

Lemma apply_flags_twice (args : Args) (g : Globals) :
  apply_flags args (apply_flags args g) = apply_flags args g.
Proof.
  destruct (apply_flags_applied args (apply_flags args g))
    as (H1 & H2 & H3 & H4 & H5 & H6 & H7 & H8 & H9 & H10 & H11).
  apply Globals_eq;
    [rewrite H1|rewrite H2|rewrite H3|rewrite H4|rewrite H5|rewrite H6
    |rewrite H7|rewrite H8|rewrite H9|rewrite H10|rewrite H11];
    clear H1 H2 H3 H4 H5 H6 H7 H8 H9 H10 H11;
    destruct (apply_flags_applied args g)
      as (H1 & H2 & H3 & H4 & H5 & H6 & H7 & H8 & H9 & H10 & H11);
    try done.
  - by destruct (no_header args).
  - by destruct (no_comments args).
  - by destruct (line_numbers args).
  - by destruct (no_show_editor args).
  - by destruct (truthy (precision args)).
  - destruct (preamble args) as [p|]; [by destruct (truthy p)|done].
  - destruct (postamble args) as [p|]; [by destruct (truthy p)|done].
  - by destruct (inches args).
  - by destruct (inches args).
  - by destruct (inches args).
Qed.

Lemma apply_flags_set_PIERCE_DELAY (args : Args) (d : float) (g : Globals) :
  apply_flags args (set_PIERCE_DELAY d g) = set_PIERCE_DELAY d (apply_flags args g).
Proof.
  unfold apply_flags.
  destruct (no_header args), (no_comments args), (line_numbers args),
    (no_show_editor args), (truthy (precision args)), (inches args),
    (preamble args) as [p|], (postamble args) as [q|];
    try destruct (truthy p); try destruct (truthy q); reflexivity.
Qed.

(** X2.  Resolving the same options a second time changes nothing: the
    second call returns what the first returned and leaves the globals as
    the first left them. *)
Theorem processArguments_idempotent (parsed : option Args) (g : Globals) :
  processArguments parsed (processArguments parsed g).2 = processArguments parsed g.
Proof.
  destruct parsed as [args|]; [|done]. simpl.
  destruct (truthy (pierce_delay args)).
  - destruct (float_of_string (pierce_delay args)) as [d|]; simpl.
    + by rewrite apply_flags_set_PIERCE_DELAY, apply_flags_twice.
    + by rewrite apply_flags_twice.
  - simpl. by rewrite apply_flags_twice.
Qed.

Lemma processArguments_flags (parsed : option Args) (g : Globals) :
  (processArguments parsed g).2 = g
  ∨ ∃ args, parsed = Some args
            ∧ ((processArguments parsed g).2 = apply_flags args g
               ∨ ∃ d, (processArguments parsed g).2 = set_PIERCE_DELAY d (apply_flags args g)).
Proof.
  destruct parsed as [args|]; [|by left]. right. exists args. split; [done|]. simpl.
  destruct (truthy (pierce_delay args)); [|by left].
  destruct (float_of_string (pierce_delay args)) as [d|]; [right; by exists d|by left].
Qed.

(** X3.  No call switches an option back: a header or comments switched
    off, line numbers switched on, the editor switched off and the
    imperial units all survive every later call, whatever its options and
    whether it succeeds or fails. *)
Theorem switched_options_stay_switched (parsed : option Args) (g : Globals) :
  (OUTPUT_HEADER g = false → OUTPUT_HEADER (processArguments parsed g).2 = false)
  ∧ (OUTPUT_COMMENTS g = false → OUTPUT_COMMENTS (processArguments parsed g).2 = false)
  ∧ (OUTPUT_LINE_NUMBERS g = true →
       OUTPUT_LINE_NUMBERS (processArguments parsed g).2 = true)
  ∧ (SHOW_EDITOR g = false → SHOW_EDITOR (processArguments parsed g).2 = false)
  ∧ (UNITS g = "G20" → UNITS (processArguments parsed g).2 = "G20").
Proof.
  destruct (processArguments_flags parsed g) as [-> | (args & _ & [-> | [d ->]])];
    [done| |];
    destruct (apply_flags_applied args g)
      as (H1 & H2 & H3 & H4 & _ & _ & _ & H8 & _); simpl;
    rewrite H1, H2, H3, H4, H8;
    (repeat split; intros ->);
    by repeat match goal with |- context [if ?b then _ else _] => destruct b end.
Qed.

Lemma processArguments_units (parsed : option Args) (g : Globals) :
  units_consistent g → units_consistent (processArguments parsed g).2.
Proof.
  intros Hg.
  assert (∀ args, units_consistent (apply_flags args g)) as Hflags.
  { intros args. unfold units_consistent.
    destruct (apply_flags_applied args g)
      as (_ & _ & _ & _ & _ & _ & _ & -> & -> & -> & _).
    destruct (inches args); [by right|done]. }
  destruct (processArguments_flags parsed g) as [-> | (args & _ & [-> | [d ->]])];
    [done|apply Hflags|apply (Hflags args)].
Qed.

(** X4.  In every configuration a process can reach, the unit directive,
    the length unit and the speed unit belong to the same unit system:
    G21 with mm and mm/min, or G20 with in and in/min. *)
Theorem reachable_units_consistent (g : Globals) :
  reachable g → units_consistent g.
Proof.
  induction 1 as [|parsed g _ IH].
  - left. done.
  - by apply processArguments_units.
Qed.

Lemma processArguments_texts (parsed : option Args) (g : Globals) :
  PRECISION g ≠ "" ∧ PREAMBLE g ≠ "" ∧ POSTAMBLE g ≠ "" →
  PRECISION (processArguments parsed g).2 ≠ ""
  ∧ PREAMBLE (processArguments parsed g).2 ≠ ""
  ∧ POSTAMBLE (processArguments parsed g).2 ≠ "".
Proof.
  intros (Hp & Hpre & Hpost).
  assert (∀ s, truthy s = true → s ≠ "") as Htruthy.
  { intros s H ->. done. }
  assert (∀ args, PRECISION (apply_flags args g) ≠ ""
                  ∧ PREAMBLE (apply_flags args g) ≠ ""
                  ∧ POSTAMBLE (apply_flags args g) ≠ "") as Hflags.
  { intros args.
    destruct (apply_flags_applied args g)
      as (_ & _ & _ & _ & -> & -> & -> & _).
    repeat split.
    - destruct (truthy (precision args)) eqn:E; auto.
    - destruct (preamble args) as [p|]; [destruct (truthy p) eqn:E|]; auto.
    - destruct (postamble args) as [p|]; [destruct (truthy p) eqn:E|]; auto. }
  destruct (processArguments_flags parsed g) as [-> | (args & _ & [-> | [d ->]])];
    [done|apply Hflags|apply (Hflags args)].
Qed.

(** X5.  In every configuration a process can reach, the precision text,
    the preamble and the postamble are non-empty: an empty option value is
    ignored, so none of them can be blanked. *)
Theorem reachable_texts_nonempty (g : Globals) :
  reachable g → PRECISION g ≠ "" ∧ PREAMBLE g ≠ "" ∧ POSTAMBLE g ≠ "".
Proof.
  induction 1 as [|parsed g _ IH].
  - done.
  - by apply processArguments_texts.
Qed.

Lemma export_gcode_line_numbers (x : bool) (g : Globals) (objectslist : list PathObject) :
  export_gcode (set_OUTPUT_LINE_NUMBERS x g) objectslist = export_gcode g objectslist.
Proof. reflexivity. Qed.

Lemma apply_flags_with_line_numbers (b : bool) (args : Args) (g : Globals) :
  ∃ x, apply_flags (with_line_numbers b args) g
       = set_OUTPUT_LINE_NUMBERS x (apply_flags args g).
Proof.
  exists (if b then true else OUTPUT_LINE_NUMBERS g).
  destruct (apply_flags_applied (with_line_numbers b args) g)
    as (H1 & H2 & H3 & H4 & H5 & H6 & H7 & H8 & H9 & H10 & H11).
  destruct (apply_flags_applied args g)
    as (K1 & K2 & K3 & K4 & K5 & K6 & K7 & K8 & K9 & K10 & K11).
  apply Globals_eq; simpl;
    [rewrite H1, K1|rewrite H2, K2|rewrite H3|rewrite H4, K4|rewrite H5, K5
    |rewrite H6, K6|rewrite H7, K7|rewrite H8, K8|rewrite H9, K9
    |rewrite H10, K10|rewrite H11, K11]; done.
Qed.

(** X6.  The line-numbers option is stored and never read: with it or
    without it [export] returns the same thing, text or failure. *)
Theorem line_numbers_never_change_the_text
    (objectslist : list PathObject) (args : Args) (g : Globals) (b : bool) :
  (export objectslist (Some (with_line_numbers b args)) g).1
  = (export objectslist (Some args) g).1.
Proof.
  unfold export, processArguments.
  destruct (apply_flags_with_line_numbers b args g) as [x ->].
  change (pierce_delay (with_line_numbers b args)) with (pierce_delay args).
  destruct (truthy (pierce_delay args)); simpl.
  - destruct (float_of_string (pierce_delay args)) as [d|]; simpl; [|done].
    destruct (existsb _ objectslist); [done|]. simpl.
    change (set_PIERCE_DELAY d (set_OUTPUT_LINE_NUMBERS x (apply_flags args g)))
      with (set_OUTPUT_LINE_NUMBERS x (set_PIERCE_DELAY d (apply_flags args g))).
    by rewrite export_gcode_line_numbers.
  - destruct (existsb _ objectslist); [done|]. simpl.
    by rewrite export_gcode_line_numbers.
Qed.

(** * Further properties of the engine *)

Lemma for_each_app {S A : Type} (body : S → A → option S) (s : S) (l1 l2 : list A) :
  for_each body s (l1 ++ l2) = s' ← for_each body s l1; for_each body s' l2.
Proof.
  revert s. induction l1 as [|a l1 IH]; intros s; simpl; [done|].
  destruct (body s a) as [s'|]; simpl; [apply IH | done].
Qed.

Lemma record_params_lookup (ps : list (string * float)) (ks : list string)
    (loc : gmap string float) (p : string) :
  fold_left (λ loc param,
               match param_lookup param ps with
               | Some v => <[param := v]> loc
               | None => loc
               end) ks loc !! p
  = match (if bool_decide (p ∈ ks) then param_lookup p ps else None) with
    | Some v => Some v
    | None => loc !! p
    end.
Proof.
  revert loc. induction ks as [|k ks IH]; intros loc; simpl; [done|].
  rewrite IH. clear IH.
  destruct (decide (p = k)) as [->|Hne].
  - rewrite (bool_decide_eq_true_2 (k ∈ k :: ks)) by (by left).
    destruct (param_lookup k ps) as [v|] eqn:E.
    + rewrite lookup_insert_eq. by destruct (bool_decide (k ∈ ks)).
    + by destruct (bool_decide (k ∈ ks)).
  - assert (bool_decide (p ∈ k :: ks) = bool_decide (p ∈ ks)) as ->.
    { apply bool_decide_ext. rewrite elem_of_cons.
      split; [intros [E|E]; [by destruct Hne|done]|by right]. }
    destruct (param_lookup k ps) as [v|]; [|done].
    by rewrite lookup_insert_ne.
Qed.

Lemma update_location_lookup (c : Command) (st : EngineState) (p : string) :
  currLocation (update_location c st) !! p
  = match (if bool_decide (p ∈ params) then param_lookup p (Parameters c) else None) with
    | Some v => Some v
    | None => currLocation st !! p
    end.
Proof. apply record_params_lookup. Qed.

Lemma torch_control_out (g : Globals) (command : string) (st : EngineState) :
  out (torch_control g command st) = out st ++ injected_lines g command (cutting st).
Proof.
  unfold torch_control, injected_lines.
  destruct (bool_decide (command ∈ ["G1"; "G2"; "G3"]) && negb (cutting st)).
  { simpl. by rewrite <- app_assoc. }
  destruct (String.eqb command "G0" && cutting st); simpl; [done|].
  by rewrite app_nil_r.
Qed.

Lemma torch_control_location (g : Globals) (command : string) (st : EngineState) :
  currLocation (torch_control g command st) = currLocation st.
Proof.
  unfold torch_control.
  destruct (bool_decide (command ∈ ["G1"; "G2"; "G3"]) && negb (cutting st)); [done|].
  by destruct (String.eqb command "G0" && cutting st).
Qed.

(** What a command does to the state, read off the torch flag alone. *)
Lemma process_command_frame (g : Globals) (st st' : EngineState) (c : Command) :
  process_command g st c = Some st' →
  ∃ k, out st' = out st ++ k
       ∧ length k ≤ 3
       ∧ ∀ st2, cutting st2 = cutting st →
           ∃ st2', process_command g st2 c = Some st2'
                   ∧ out st2' = out st2 ++ k
                   ∧ cutting st2' = cutting st'.
Proof.
  intros Hpc.
  destruct (command_kind c) as [Hgen | [Hcus | [Hsp | Hig]]].
  - rewrite process_command_generic in Hpc by done.
    destruct (movement_params g c) as [outstring|] eqn:Hps; simpl in Hpc; [|done].
    injection Hpc as <-.
    exists (injected_lines g (Name c) (cutting st) ++ own_line c outstring).
    split; [|split].
    + destruct outstring; simpl; rewrite torch_control_out;
        by rewrite <- ?app_assoc, ?app_nil_r.
    + rewrite length_app. unfold injected_lines, own_line.
      destruct (_ && _); [destruct outstring; simpl; lia|].
      destruct (_ && _); destruct outstring; simpl; lia.
    + intros st2 Hc. rewrite process_command_generic by done. rewrite Hps.
      eexists. split; [reflexivity|]. rewrite <- Hc.
      split.
      * destruct outstring; simpl; rewrite torch_control_out;
          by rewrite <- ?app_assoc, ?app_nil_r.
      * assert (cutting (torch_control g (Name c) st2)
                = cutting (torch_control g (Name c) st)) as Ht.
        { rewrite !torch_control_cutting. by rewrite Hc. }
        by destruct outstring.
  - rewrite process_command_marker in Hpc by auto.
    destruct (format_items _ _) as [items|] eqn:Hits; simpl in Hpc; [|done].
    injection Hpc as <-. exists [marker_line c items].
    split; [done|]. split; [simpl; lia|].
    intros st2 Hc. rewrite process_command_marker by auto. rewrite Hits.
    by eexists.
  - rewrite process_command_marker in Hpc by auto.
    destruct (format_items _ _) as [items|] eqn:Hits; simpl in Hpc; [|done].
    injection Hpc as <-. exists [marker_line c items].
    split; [done|]. split; [simpl; lia|].
    intros st2 Hc. rewrite process_command_marker by auto. rewrite Hits.
    by eexists.
  - rewrite process_command_ignored in Hpc by done. injection Hpc as <-.
    exists []. split; [by rewrite app_nil_r|]. split; [simpl; lia|].
    intros st2 Hc. rewrite process_command_ignored by done.
    exists st2. by rewrite app_nil_r.
Qed.

(** X7.  The lines a command appends and the torch flag it leaves depend on
    the command, the configuration and the torch flag only: from two
    states with the same flag, whatever their buffers and location
    dictionaries, the command appends the same lines, at most three, after
    what each buffer already holds, and leaves the same flag. *)
Theorem command_effect_depends_on_torch_flag_only
    (g : Globals) (st1 st2 st1' : EngineState) (c : Command) :
  cutting st2 = cutting st1 →
  process_command g st1 c = Some st1' →
  ∃ st2' k, process_command g st2 c = Some st2'
            ∧ out st1' = out st1 ++ k
            ∧ out st2' = out st2 ++ k
            ∧ length k ≤ 3
            ∧ cutting st2' = cutting st1'.
Proof.
  intros Hc Hpc.
  destruct (process_command_frame g st1 st1' c Hpc) as (k & Hk & Hlen & Hany).
  destruct (Hany st2 Hc) as (st2' & Hpc2 & Hk2 & Hc2).
  by exists st2', k.
Qed.

(** X8.  A command under the generic rule that carries none of the tracked
    letters X, Y, F, I, J (a [G1] with only a Z, say) gets no line of its
    own: torch control runs, nothing else changes, and [format] is not
    called, so the command cannot raise. *)
Theorem command_without_tracked_letters_has_no_line
    (g : Globals) (st : EngineState) (c : Command) :
  generic_rule c = true →
  (∀ p, p ∈ params → param_lookup p (Parameters c) = None) →
  process_command g st c = Some (torch_control g (Name c) st).
Proof.
  intros Hgen Hnone. rewrite process_command_generic by done.
  assert (movement_params g c = Some []) as ->.
  { unfold movement_params, params, for_each, append_param.
    rewrite !Hnone; [done|set_solver..]. }
  simpl. f_equal. unfold update_location, params. simpl.
  rewrite !Hnone by set_solver. by destruct (torch_control g (Name c) st).
Qed.

(** X9.  After a command under the generic rule the location dictionary
    holds, for every tracked letter the command carries, the raw value of
    the command (not converted to the active unit); every other key,
    tracked or not, keeps what it had. *)
Theorem location_records_raw_values
    (g : Globals) (st st' : EngineState) (c : Command) (p : string) :
  generic_rule c = true →
  process_command g st c = Some st' →
  currLocation st' !! p
  = match (if bool_decide (p ∈ params) then param_lookup p (Parameters c) else None) with
    | Some v => Some v
    | None => currLocation st !! p
    end.
Proof.
  intros Hgen Hpc. rewrite process_command_generic in Hpc by done.
  destruct (movement_params g c) as [outstring|]; simpl in Hpc; [|done].
  injection Hpc as <-. rewrite update_location_lookup.
  destruct outstring; simpl; by rewrite torch_control_location.
Qed.

Lemma run_commands_frame (g : Globals) (cmds : list Command) (st st' : EngineState) :
  run_commands g st cmds = Some st' →
  ∃ k, out st' = out st ++ k
       ∧ length k ≤ 3 * length cmds
       ∧ ∀ st2, cutting st2 = cutting st →
           ∃ st2', run_commands g st2 cmds = Some st2'
                   ∧ out st2' = out st2 ++ k
                   ∧ cutting st2' = cutting st'.
Proof.
  unfold run_commands. revert st. induction cmds as [|c cmds IH]; intros st; simpl.
  { intros [= <-]. exists []. split; [by rewrite app_nil_r|]. split; [simpl; lia|].
    intros st2 Hc. exists st2. by rewrite app_nil_r. }
  destruct (process_command g st c) as [st1|] eqn:Hpc; simpl; [|done].
  intros Hrun.
  destruct (process_command_frame g st st1 c Hpc) as (k1 & Hk1 & Hlen1 & Hany1).
  destruct (IH st1 Hrun) as (k2 & Hk2 & Hlen2 & Hany2).
  exists (k1 ++ k2). split; [by rewrite Hk2, Hk1, app_assoc|].
  split; [rewrite length_app; lia|].
  intros st2 Hc. destruct (Hany1 st2 Hc) as (st2a & -> & Hka & Hca). simpl.
  destruct (Hany2 st2a Hca) as (st2' & Hrun2 & Hkb & Hcb).
  exists st2'. split; [done|]. split; [by rewrite Hkb, Hka, app_assoc|done].
Qed.

Lemma run_commands_raises (g : Globals) (cmds : list Command) (st st2 : EngineState) :
  cutting st2 = cutting st →
  run_commands g st cmds = None → run_commands g st2 cmds = None.
Proof.
  intros Hc Hnone. destruct (run_commands g st2 cmds) as [st2'|] eqn:Hrun; [|done].
  destruct (run_commands_frame g cmds st2 st2' Hrun) as (k & _ & _ & Hany).
  destruct (Hany st (eq_sym Hc)) as (st' & Hst & _). congruence.
Qed.

(** X10.  Cutting the command list of an object in two at a point where
    the torch is off changes nothing: the lines of the whole list are the
    lines of the first part followed by the lines of the second, and the
    whole raises exactly when one of the parts does. *)
Theorem parse_lines_split_at_torch_off (g : Globals) (cmds1 cmds2 : list Command) :
  torch_after false cmds1 = false →
  parse_lines g (cmds1 ++ cmds2)
  = ls1 ← parse_lines g cmds1; ls2 ← parse_lines g cmds2; Some (ls1 ++ ls2).
Proof.
  intros Hoff. unfold parse_lines, run_commands. rewrite for_each_app.
  fold (run_commands g parse_start cmds1).
  destruct (run_commands g parse_start cmds1) as [st1|] eqn:Hrun1; simpl; [|done].
  fold (run_commands g st1 cmds2). fold (run_commands g parse_start cmds2).
  pose proof (run_commands_cutting g cmds1 parse_start st1 Hrun1) as Hc1.
  change (cutting parse_start) with false in Hc1. rewrite Hoff in Hc1.
  destruct (run_commands g parse_start cmds2) as [st2|] eqn:Hrun2; simpl.
  - destruct (run_commands_frame g cmds2 parse_start st2 Hrun2) as (k & Hk & _ & Hany).
    destruct (Hany st1 Hc1) as (st' & -> & Hk' & Hc'). simpl.
    unfold final_safety. rewrite Hc', Hc1, Hk', Hk. simpl.
    destruct (cutting st2); by rewrite ?app_assoc.
  - by rewrite (run_commands_raises g cmds2 parse_start st1 Hc1 Hrun2).
Qed.

(** X11.  [parse] emits at most three lines per command, and one more for
    the safety torch-off. *)
Theorem parse_lines_length (g : Globals) (cmds : list Command) (ls : list string) :
  parse_lines g cmds = Some ls → length ls ≤ 3 * length cmds + 1.
Proof.
  unfold parse_lines.
  destruct (run_commands g parse_start cmds) as [st|] eqn:Hrun; simpl; [|done].
  intros [= <-].
  destruct (run_commands_frame g cmds parse_start st Hrun) as (k & Hk & Hlen & _).
  unfold final_safety. destruct (cutting st); rewrite Hk, ?length_app; simpl; lia.
Qed.

(** Whatever holds of the empty buffer and survives the three kinds of
    addition the engine makes holds of every buffer of the engine. *)
Lemma process_command_lines_ind (g : Globals) (Q : list string → Prop)
    (st st' : EngineState) (c : Command) :
  (∀ ls l, Q ls → l ≠ M7_line → l ≠ M8_line → Q (ls ++ [l])) →
  (∀ ls, Q ls → Q (ls ++ [M7_line; G4_line g])) →
  (∀ ls, Q ls → Q (ls ++ [M8_line])) →
  process_command g st c = Some st' → Q (out st) → Q (out st').
Proof.
  intros Hneutral Hon Hoff Hpc HQ.
  destruct (command_kind c) as [Hgen | [Hcus | [Hsp | Hig]]].
  - rewrite process_command_generic in Hpc by done.
    destruct (movement_params g c) as [outstring|] eqn:Hps; simpl in Hpc; [|done].
    injection Hpc as <-.
    assert (Q (out (torch_control g (Name c) st))) as Htc.
    { rewrite torch_control_out. unfold injected_lines.
      destruct (_ && _); [by apply Hon|].
      destruct (_ && _); [by apply Hoff|by rewrite app_nil_r]. }
    destruct outstring as [|t ts] eqn:Ho; [done|]. simpl.
    destruct (own_line_neutral g c (t :: ts) (Name c +:+ " " +:+ join " " (t :: ts)) Hps)
      as [H7 H8]; [by left|].
    by apply Hneutral.
  - rewrite process_command_marker in Hpc by auto.
    destruct (format_items _ _) as [items|]; simpl in Hpc; [|done].
    injection Hpc as <-. simpl.
    destruct (marker_line_neutral c items) as [H7 H8]; [auto|]. by apply Hneutral.
  - rewrite process_command_marker in Hpc by auto.
    destruct (format_items _ _) as [items|]; simpl in Hpc; [|done].
    injection Hpc as <-. simpl.
    destruct (marker_line_neutral c items) as [H7 H8]; [auto|]. by apply Hneutral.
  - rewrite process_command_ignored in Hpc by done. by injection Hpc as <-.
Qed.

Lemma parse_lines_ind (g : Globals) (Q : list string → Prop)
    (cmds : list Command) (ls : list string) :
  Q [] →
  (∀ ls l, Q ls → l ≠ M7_line → l ≠ M8_line → Q (ls ++ [l])) →
  (∀ ls, Q ls → Q (ls ++ [M7_line; G4_line g])) →
  (∀ ls, Q ls → Q (ls ++ [M8_line])) →
  parse_lines g cmds = Some ls → Q ls.
Proof.
  intros Hnil Hneutral Hon Hoff. unfold parse_lines, run_commands.
  assert (∀ st st', for_each (process_command g) st cmds = Some st' →
                    Q (out st) → Q (out st')) as Hrun.
  { induction cmds as [|c cmds IH]; intros st st'; simpl.
    { by intros [= <-]. }
    destruct (process_command g st c) as [st1|] eqn:Hpc; simpl; [|done].
    intros Hrest HQ. apply (IH st1 st' Hrest).
    by apply (process_command_lines_ind g Q st st1 c). }
  destruct (for_each (process_command g) parse_start cmds) as [st|] eqn:E; simpl; [|done].
  intros [= <-]. specialize (Hrun parse_start st E Hnil).
  unfold final_safety. destruct (cutting st); [by apply Hoff|done].
Qed.

(** X12.  In the lines of [parse] every torch-on line is directly followed
    by the dwell line [G4 P<pierce delay> (Pierce delay)] with the pierce
    delay of the configuration: the torch is never fired without the
    dwell, and no buffer ends in a torch-on line. *)
Theorem dwell_follows_torch_on
    (g : Globals) (cmds : list Command) (ls : list string) (i : nat) :
  parse_lines g cmds = Some ls →
  ls !! i = Some "M7 (Torch ON)" →
  ls !! S i = Some ("G4 P" +:+ float_str (PIERCE_DELAY g) +:+ " (Pierce delay)").
Proof.
  change (parse_lines g cmds = Some ls →
          ls !! i = Some M7_line → ls !! S i = Some (G4_line g)).
  intros Hparse. revert i.
  apply (parse_lines_ind g
           (λ ls, ∀ i, ls !! i = Some M7_line → ls !! S i = Some (G4_line g))
           cmds ls); [done| | | |done].
  - intros ks l HQ H7 _ i Hi.
    destruct (decide (i < length ks)) as [Hlt|Hge].
    + rewrite lookup_app_l in Hi by done.
      apply HQ in Hi. by apply lookup_app_l_Some.
    + rewrite lookup_app_r in Hi by lia.
      destruct (i - length ks) as [|n]; simpl in Hi; [congruence|done].
  - intros ks HQ i Hi.
    destruct (decide (i < length ks)) as [Hlt|Hge].
    + rewrite lookup_app_l in Hi by done.
      apply HQ in Hi. by apply lookup_app_l_Some.
    + rewrite lookup_app_r in Hi by lia. rewrite lookup_app_r by lia.
      replace (S i - length ks) with (S (i - length ks)) by lia.
      destruct (i - length ks) as [|[|n]]; simpl in *; [done| |done].
      destruct (G4_line_neutral g) as [H7 _]. congruence.
  - intros ks HQ i Hi.
    destruct (decide (i < length ks)) as [Hlt|Hge].
    + rewrite lookup_app_l in Hi by done.
      apply HQ in Hi. by apply lookup_app_l_Some.
    + rewrite lookup_app_r in Hi by lia.
      destruct (i - length ks) as [|n]; simpl in Hi; [discriminate Hi|done].
Qed.

(** * Further properties of [export] *)

Lemma missing_path_spec (objectslist : list PathObject) :
  existsb (λ obj, negb (bool_decide (is_Some (Path obj)))) objectslist = true
  ↔ ∃ obj, obj ∈ objectslist ∧ Path obj = None.
Proof.
  rewrite existsb_exists. split.
  - intros (obj & Hin & H). exists obj. split; [by apply list_elem_of_In|].
    apply negb_true_iff, bool_decide_eq_false in H.
    destruct (Path obj); [|done]. exfalso. apply H. by eexists.
  - intros (obj & Hin & H). exists obj. split; [by apply list_elem_of_In|].
    rewrite H. apply negb_true_iff, bool_decide_eq_false. by intros [? ?].
Qed.

(** X13.  [export] returns [None] exactly when the options are refused or
    some object of the list, active or not, has no path; in the second
    case the options of the call are applied all the same. *)
Theorem export_returns_None_iff
    (objectslist : list PathObject) (parsed : option Args) (g : Globals) :
  ((export objectslist parsed g).1 = Some None
   ↔ (processArguments parsed g).1 = false
     ∨ ∃ obj, obj ∈ objectslist ∧ Path obj = None)
  ∧ (export objectslist parsed g).2 = (processArguments parsed g).2.
Proof.
  unfold export. destruct (processArguments parsed g) as [ok g'] eqn:Hpa. simpl.
  destruct ok; simpl.
  - destruct (existsb _ objectslist) eqn:Hex; simpl.
    + split; [|done]. split; [|done]. intros _. right. by apply missing_path_spec.
    + split; [|done]. split.
      * by destruct (export_gcode g' objectslist).
      * intros [?|H]; [done|]. apply missing_path_spec in H. congruence.
  - split; [|done]. split; [by left|done].
Qed.

Lemma export_object_inactive (g : Globals) (gcode : string) (obj : PathObject) :
  inactive obj = true → export_object g gcode obj = Some gcode.
Proof. unfold export_object. by intros ->. Qed.

(** X14.  An inactive object that has a path leaves no trace: taking it
    out of the list changes neither the text nor the outcome of [export],
    even when its commands would make [parse] raise. *)
Theorem inactive_object_leaves_no_trace
    (objs1 objs2 : list PathObject) (obj : PathObject)
    (parsed : option Args) (g : Globals) :
  inactive obj = true →
  is_Some (Path obj) →
  export (objs1 ++ obj :: objs2) parsed g = export (objs1 ++ objs2) parsed g.
Proof.
  intros Hin Hpath. unfold export.
  destruct (processArguments parsed g) as [ok g']. destruct ok; simpl; [|done].
  rewrite !existsb_app. simpl.
  rewrite (bool_decide_eq_true_2 _ Hpath). simpl.
  destruct (existsb _ objs1 || existsb _ objs2); [done|].
  f_equal. f_equal. unfold export_gcode.
  rewrite !for_each_app. simpl.
  destruct (for_each (export_object g') _ objs1) as [gcode|]; simpl; [|done].
  by rewrite export_object_inactive.
Qed.

Lemma export_objects_returns (g : Globals) (objectslist : list PathObject) (gcode : string) :
  (∀ x, is_Some (float_format x (precision_string g))) →
  Forall (λ obj, is_Some (Path obj)) objectslist →
  is_Some (for_each (export_object g) gcode objectslist).
Proof.
  intros Hfmt Hpaths. revert gcode.
  induction Hpaths as [|obj objs [cmds Hcmds] _ IH]; intros gcode; simpl.
  { by eexists. }
  assert (is_Some (export_object g gcode obj)) as [gcode' ->]; [|apply IH].
  unfold export_object. destruct (inactive obj); [by eexists|].
  unfold parse. rewrite Hcmds. simpl.
  destruct (parse_lines_returns g cmds Hfmt) as [ls ->]. by eexists.
Qed.

(** X15.  When the options are accepted, every object has a path and
    [format] accepts the precision specification, [export] returns a text:
    nothing in the translation can raise. *)
Theorem export_returns_text
    (objectslist : list PathObject) (parsed : option Args) (g : Globals) :
  (processArguments parsed g).1 = true →
  Forall (λ obj, is_Some (Path obj)) objectslist →
  (∀ x, is_Some (float_format x (precision_string (processArguments parsed g).2))) →
  ∃ text, (export objectslist parsed g).1 = Some (Some text).
Proof.
  intros Hok Hpaths Hfmt. unfold export.
  destruct (processArguments parsed g) as [ok g']. simpl in *. subst ok. simpl.
  assert (existsb (λ obj, negb (bool_decide (is_Some (Path obj)))) objectslist = false)
    as ->.
  { apply not_true_is_false. intros H. apply missing_path_spec in H as (obj & Hin & H).
    rewrite Forall_forall in Hpaths. destruct (Hpaths obj Hin) as [? ?]. congruence. }
  simpl. unfold export_gcode.
  match goal with
  | |- context [for_each (export_object g') ?a objectslist] =>
      destruct (export_objects_returns g' objectslist a Hfmt Hpaths) as [gcode ->]
  end.
  by eexists.
Qed.

(** * Further properties of the text rules *)

Lemma splitlines_from_last (keepends : bool) (cur l : string) :
  has_boundary l = false →
  splitlines_from keepends cur l = if decide (cur +:+ l = "") then [] else [cur +:+ l].
Proof.
  revert cur. induction l as [|a l IH]; intros cur Hl.
  - by rewrite app_empty_r.
  - simpl in Hl. apply orb_false_iff in Hl as [Ha Hl].
    simpl. rewrite Ha, IH by done. by rewrite string_app_assoc.
Qed.

Lemma splitlines_unterminated (keepends : bool) (ls : list string) (l : string) :
  Forall (λ l, has_boundary l = false) ls → has_boundary l = false → l ≠ "" →
  splitlines keepends (text_of ls +:+ l)
  = map (λ l, l +:+ (if keepends then LF else "")) ls ++ [l].
Proof.
  intros Hls Hl Hne. unfold splitlines.
  induction Hls as [|x ls Hx _ IH].
  - rewrite app_empty_l, splitlines_from_last by done.
    rewrite app_empty_l. by destruct (decide (l = "")).
  - rewrite text_of_cons, !string_app_assoc, splitlines_from_line by done.
    by rewrite IH.
Qed.

(** X16.  A last line without a terminator gets exactly one line feed,
    under the preamble rule and under the postamble rule alike; the lines
    before it get one line feed in the preamble and two in the postamble. *)
Theorem unterminated_last_line_gets_one_terminator (ls : list string) (l : string) :
  Forall (λ l, has_boundary l = false) ls → has_boundary l = false → l ≠ "" →
  preamble_text (text_of ls +:+ l) = text_of (ls ++ [l])
  ∧ postamble_text (text_of ls +:+ l) = text_of (map (λ l, l +:+ LF) ls ++ [l]).
Proof.
  intros Hls Hl Hne. unfold preamble_text, postamble_text.
  rewrite !splitlines_unterminated by done. split; [|done].
  f_equal. f_equal. clear. induction ls as [|x ls IH]; [done|].
  simpl. by rewrite app_empty_r, IH.
Qed.

Lemma text_with_cons (sep l : string) (ls : list string) :
  text_with sep (l :: ls) = l +:+ sep +:+ text_with sep ls.
Proof.
  unfold text_with. change (map (λ l, l +:+ sep) (l :: ls))
    with ((l +:+ sep) :: map (λ l, l +:+ sep) ls).
  by rewrite concat_empty_cons, string_app_assoc.
Qed.

Lemma splitlines_from_crlf (keepends : bool) (cur l rest : string) :
  has_boundary l = false →
  splitlines_from keepends cur (l +:+ CRLF +:+ rest)
  = (cur +:+ l +:+ (if keepends then CRLF else ""))
      :: splitlines_from keepends "" rest.
Proof.
  revert cur. induction l as [|a l IH]; intros cur Hl.
  - rewrite !app_empty_l. by destruct keepends.
  - simpl in Hl. apply orb_false_iff in Hl as [Ha Hl].
    rewrite app_cons. simpl splitlines_from. rewrite Ha, IH by done.
    by rewrite string_app_assoc.
Qed.

(** X17.  A preamble whose lines end in carriage return and line feed
    comes out with line feeds only; a postamble of that kind keeps its
    carriage return and line feed and gets a second line feed per line. *)
Theorem crlf_text_is_normalised_in_preamble_only (ls : list string) :
  Forall (λ l, has_boundary l = false) ls →
  preamble_text (text_with CRLF ls) = text_of ls
  ∧ postamble_text (text_with CRLF ls) = text_of (map (λ l, l +:+ CRLF) ls).
Proof.
  intros Hls. unfold preamble_text, postamble_text.
  assert (∀ keepends, splitlines keepends (text_with CRLF ls)
                      = map (λ l, l +:+ (if keepends then CRLF else "")) ls) as Hsplit.
  { intros keepends. unfold splitlines.
    induction Hls as [|x ls Hx _ IH]; [done|].
    rewrite text_with_cons, splitlines_from_crlf by done. by rewrite IH. }
  rewrite !Hsplit. split; [|done].
  f_equal. clear. induction ls as [|x ls IH]; [done|].
  simpl. by rewrite app_empty_r, IH.
Qed.

Lemma prefix_iff (p s : string) :
  String.prefix p s = true ↔ ∃ b, s = p +:+ b.
Proof.
  revert s. induction p as [|a p IH]; intros s.
  - split; [intros _; by exists s|]. intros _. by destruct s.
  - destruct s as [|c s]; simpl.
    + split; [done|]. intros [b Hb]. discriminate Hb.
    + destruct (ascii_dec a c) as [->|Hne].
      * rewrite IH. split; intros [b Hb]; exists b.
        -- by rewrite app_cons, <- Hb.
        -- rewrite app_cons in Hb. by injection Hb.
      * split; [done|]. intros [b Hb]. rewrite app_cons in Hb. by injection Hb.
Qed.

(** X18.  A command is a custom marker exactly when the tag occurs
    somewhere in its name, at the start, at the end or in the middle:
    [contains pat s] holds exactly when [s] is some text, then [pat], then
    some text. *)
Theorem contains_iff_occurs (pat s : string) :
  contains pat s = true ↔ ∃ a b, s = a +:+ pat +:+ b.
Proof.
  induction s as [|c s IH].
  - change (contains pat "") with (String.prefix pat "" || false).
    rewrite orb_false_r, prefix_iff. split.
    + intros [b Hb]. by exists "", b.
    + intros (a & b & H). destruct a; [by exists b|discriminate H].
  - change (contains pat (String c s))
      with (String.prefix pat (String c s) || contains pat s).
    rewrite orb_true_iff, prefix_iff, IH. split.
    + intros [[b Hb] | (a & b & Hab)].
      * by exists "", b.
      * exists (String c a), b. by rewrite app_cons, <- Hab.
    + intros (a & b & H). destruct a as [|c' a].
      * left. by exists b.
      * right. rewrite app_cons in H. injection H as _ H. by exists a, b.
Qed.

Lemma export_gcode_unfold (g : Globals) (objectslist : list PathObject) :
  export_gcode g objectslist
  = texts ← mapM (export_object g "") objectslist;
    Some (export_head g +:+ String.concat "" texts +:+ export_tail g).
Proof.
  unfold export_gcode. rewrite export_objects_alone.
  destruct (mapM (export_object g "") objectslist) as [texts|]; simpl; [|done].
  f_equal. unfold export_head, export_tail.
  destruct (OUTPUT_HEADER g), (OUTPUT_COMMENTS g);
    by rewrite ?app_empty_l, ?string_app_assoc.
Qed.

(** X19.  The text of [export] is a head that depends on the configuration
    only (header, preamble, unit directive), then the texts of the objects
    in order, each as it comes out when translated alone, then a tail that
    depends on the configuration only (the postamble); it raises exactly
    when the translation of one of the objects does. *)
Theorem export_gcode_shape (g : Globals) (objectslist : list PathObject) :
  export_gcode g objectslist
  = texts ← mapM (export_object g "") objectslist;
    Some (export_head g +:+ String.concat "" texts +:+ export_tail g).
Proof. apply export_gcode_unfold. Qed.

(** X20.  The unit directive is written right after the preamble, whatever
    the preamble says: with the imperial units and the default preamble the
    text selects millimetres with the G21 of the preamble and then inches
    with G20, before any line of an object. *)
Theorem imperial_directive_follows_metric_preamble
    (g : Globals) (objectslist : list PathObject) (text : string) :
  PREAMBLE g = default_PREAMBLE →
  UNITS g = "G20" →
  export_gcode g objectslist = Some text →
  ∃ a texts,
    mapM (export_object g "") objectslist = Some texts
    ∧ text = a +:+ text_of ["G21"; "(Setup for plasma cutting)"; "G20"]
               +:+ String.concat "" texts +:+ export_tail g.
Proof.
  intros Hpre Hunits. rewrite export_gcode_unfold.
  destruct (mapM (export_object g "") objectslist) as [texts|]; simpl; [|done].
  intros [= <-].
  exists ((if OUTPUT_HEADER g then text_of (header_lines g) else "")
          +:+ (if OUTPUT_COMMENTS g then text_of ["(begin preamble)"] else "")
          +:+ text_of ["G90 G54 G40 G49 G80"]), texts.
  split; [done|]. unfold export_head. rewrite Hpre, Hunits.
  change (preamble_text default_PREAMBLE)
    with (text_of ["G90 G54 G40 G49 G80"] +:+ text_of ["G21"; "(Setup for plasma cutting)"]).
  change (text_of ["G21"; "(Setup for plasma cutting)"; "G20"])
    with (text_of ["G21"; "(Setup for plasma cutting)"] +:+ text_of ["G20"]).
  by rewrite !string_app_assoc.
Qed.
End Properties.

(** * The reference host prints the digits it is asked for *)

Lemma length_app (s t : string) :
  String.length (s +:+ t) = String.length s + String.length t.
Proof. induction s as [|a s IH]; [done|]. rewrite app_cons. simpl. by rewrite IH. Qed.

Lemma length_zeros (n : nat) : String.length (RefHost.zeros n) = n.
Proof. induction n as [|n IH]; [done|]. simpl. by rewrite IH. Qed.

Lemma length_substring (s : string) (k n : nat) :
  k + n ≤ String.length s → String.length (String.substring k n s) = n.
Proof.
  revert k n. induction s as [|a s IH]; intros k n; simpl.
  - intros H. assert (k = 0 ∧ n = 0) as [-> ->] by lia. done.
  - destruct k as [|k]; [destruct n as [|n]|]; simpl; intros H.
    + done.
    + rewrite IH; [done|lia].
    + apply IH. lia.
Qed.

Lemma fixed_fraction_digits (n : nat) (x : Q) :
  ∃ ip fp, RefHost.fixed (S n) x = ip +:+ "." +:+ fp ∧ String.length fp = S n.
Proof.
  unfold RefHost.fixed.
  set (d := RefHost.string_of_Z _).
  set (ds := RefHost.zeros (S (S n) - String.length d) +:+ d).
  assert (S (S n) ≤ String.length ds) as Hlen.
  { unfold ds. rewrite length_app, length_zeros. lia. }
  eexists _, _. split.
  - rewrite <- string_app_assoc. reflexivity.
  - apply length_substring. lia.
Qed.

(** * The reference host prints fixed-point numbers *)

Lemma all_digits_app (s t : string) :
  all_digits (s +:+ t) = all_digits s && all_digits t.
Proof.
  induction s as [|a s IH]; [done|].
  rewrite app_cons. simpl. by rewrite IH, andb_assoc.
Qed.

Lemma all_digits_zeros (n : nat) : all_digits (RefHost.zeros n) = true.
Proof. induction n as [|n IH]; [done|]. simpl. by rewrite IH. Qed.

Lemma all_digits_substring (s : string) (k n : nat) :
  all_digits s = true → all_digits (String.substring k n s) = true.
Proof.
  revert k n. induction s as [|a s IH]; intros k n Hs.
  { by destruct k, n. }
  simpl in Hs. apply andb_prop in Hs as [Ha Hs].
  destruct k as [|k]; [destruct n as [|n]|]; simpl; [done| |by apply IH].
  by rewrite Ha, IH.
Qed.

Lemma all_digits_uint (u : Decimal.uint) :
  all_digits (NilEmpty.string_of_uint u) = true.
Proof. induction u; simpl; [done|by rewrite IHu..]. Qed.

Lemma all_digits_string_of_Z (z : Z) : all_digits (RefHost.string_of_Z z) = true.
Proof.
  unfold RefHost.string_of_Z, NilZero.string_of_uint.
  destruct (N.to_uint (Z.to_N z)); [done|apply all_digits_uint..].
Qed.

Lemma fraction_of_digits (s t : string) :
  all_digits s = true → fraction_of (s +:+ t) = fraction_of t.
Proof.
  induction s as [|a s IH]; [done|]. intros H. simpl in H.
  apply andb_prop in H as [Ha Hs].
  change (fraction_of (String a s +:+ t))
    with (if Ascii.eqb a "." then s +:+ t else fraction_of (s +:+ t)).
  destruct (Ascii.eqb_spec a ".") as [->|_]; [done|by apply IH].
Qed.

Lemma fraction_of_none (s : string) : all_digits s = true → fraction_of s = "".
Proof.
  intros H. rewrite <- (app_empty_r s). by rewrite fraction_of_digits.
Qed.

(** [fixed n x] has exactly [n] digits after its point. *)
Lemma fixed_has_fraction_digits (n : nat) (x : Q) :
  has_fraction_digits n (RefHost.fixed n x).
Proof.
  unfold RefHost.fixed.
  set (d := RefHost.string_of_Z _).
  set (ds := RefHost.zeros (S n - String.length d) +:+ d).
  assert (all_digits ds = true) as Hds.
  { unfold ds. rewrite all_digits_app, all_digits_zeros.
    apply all_digits_string_of_Z. }
  assert (S n ≤ String.length ds) as Hlen.
  { unfold ds. rewrite length_app, length_zeros. lia. }
  set (ip := String.substring 0 (String.length ds - n) ds).
  assert (all_digits ip = true) as Hip by by apply all_digits_substring.
  assert (∀ t, fraction_of ((if Qlt_le_dec x 0 then "-" else "") +:+ ip +:+ t)
               = fraction_of t) as Hfrac.
  { intros t. destruct (Qlt_le_dec x 0); [rewrite app_cons|];
      rewrite ?app_empty_l; simpl; by rewrite fraction_of_digits. }
  unfold has_fraction_digits. rewrite Hfrac. destruct n as [|n].
  - done.
  - rewrite app_cons, app_empty_l. simpl.
    split; [apply length_substring; lia|by apply all_digits_substring].
Qed.

Lemma substring_app_l (s t : string) :
  String.substring 0 (String.length s) (s +:+ t) = s.
Proof.
  induction s as [|a s IH]; [by destruct t|].
  rewrite app_cons. simpl. by rewrite IH.
Qed.

Lemma substring_app_r (s t : string) :
  String.substring (String.length s) (String.length t) (s +:+ t) = t.
Proof.
  induction s as [|a s IH]; [|by rewrite app_cons].
  rewrite app_empty_l. simpl. induction t as [|b t IHt]; [done|].
  simpl. by rewrite IHt.
Qed.

Lemma digits_value_uint (u : Decimal.uint) (acc : nat) :
  RefHost.digits_value (Z.of_nat acc) (NilEmpty.string_of_uint u)
  = Some (Z.of_nat (Nat.of_uint_acc u acc)).
Proof.
  revert acc. induction u as [|u IH|u IH|u IH|u IH|u IH|u IH|u IH|u IH|u IH|u IH];
    intros acc; [done|..];
    simpl NilEmpty.string_of_uint; simpl Nat.of_uint_acc;
    cbn [RefHost.digits_value];
    match goal with
    | |- context [RefHost.digit_of ?ch] =>
        let v := eval vm_compute in (RefHost.digit_of ch) in
        change (RefHost.digit_of ch) with v
    end;
    cbn [mbind option_bind]; rewrite <- IH; f_equal;
    rewrite Nat.tail_mul_spec; lia.
Qed.

Lemma decimal_value (n : nat) :
  RefHost.nonempty_digits (decimal n) = Some (Z.of_nat n).
Proof.
  unfold RefHost.nonempty_digits, decimal, NilZero.string_of_uint.
  pose proof (DecimalNat.Unsigned.of_to n) as Hn. unfold Nat.of_uint in Hn.
  pose proof (digits_value_uint (Nat.to_uint n) 0) as Hv. rewrite Hn in Hv.
  destruct (Nat.to_uint n) as [|u|u|u|u|u|u|u|u|u|u] eqn:E;
    [by rewrite <- Hn|exact Hv..].
Qed.

Lemma spec_precision_decimal (n : nat) :
  RefHost.spec_precision ("." +:+ decimal n +:+ "f") = Some n.
Proof.
  rewrite app_cons, app_empty_l. unfold RefHost.spec_precision.
  rewrite length_app. change (String.length "f") with 1.
  replace (String.length (decimal n) + 1 - 1) with (String.length (decimal n)) by lia.
  pose proof (substring_app_r (decimal n) "f") as Hr.
  change (String.length "f") with 1 in Hr. rewrite Hr, substring_app_l.
  simpl. rewrite decimal_value. simpl. by rewrite Nat2Z.id.
Qed.

(** The reference host keeps the law of the presentation type [f]. *)
Lemma RefHost_fixed_point_format (n : nat) : @fixed_point_format RefHost.host n.
Proof.
  intros x s. change (float_format x ("." +:+ decimal n +:+ "f"))
    with (RefHost.format x ("." +:+ decimal n +:+ "f")).
  unfold RefHost.format. rewrite spec_precision_decimal. simpl.
  intros [= <-]. apply fixed_has_fraction_digits.
Qed.

(** On the reference host, what a configuration of precision 2 prints has
    two fractional digits. *)
Lemma printed_with_two_digits (x : Q) (s : string) :
  printed (globals_after precision_2_args) x s → has_fraction_digits 2 s.
Proof. intros [_ H]. apply (H 2); [reflexivity|apply RefHost_fixed_point_format]. Qed.

(** * The theorems at sample inputs *)

(** The scenario of the specification, translated by [parse]. *)
Example scenario_lines :
  parse_lines initial_globals scenario_commands
  = Some [ "G0 X0.000 Y0.000"; "M7 (Torch ON)"; "G4 P0.5 (Pierce delay)";
           "G1 X10.000 Y10.000 F500.000"; "M8 (Torch OFF)" ].
Proof. by vm_compute. Qed.

(** The custom command scenario: one comment line with [A1.50]. *)
Example custom_command_scenario :
  out <$> process_command (globals_after precision_2_args) parse_start custom_foo
  = Some ["(Custom: CustomCommandFoo A1.50)"].
Proof. by vm_compute. Qed.

(** The ignore set at [M3 S1000], from a fresh engine state. *)
Lemma ignored_command_witness :
  "M3" ∈ ["M3"; "M4"; "M5"; "G17"; "G18"; "G19"; "G43"]
  ∧ ∃ st', process_command initial_globals parse_start (command "M3" [("S", 1000%Q)])
             = Some st'
           ∧ out st' = out parse_start
           ∧ cutting st' = cutting parse_start
           ∧ currLocation st' = currLocation parse_start.
Proof.
  split; [by left|].
  apply (ignored_command_is_silent initial_globals parse_start
           (command "M3" [("S", 1000%Q)])).
  by left.
Defined.

(** The custom marker rule at [CustomCommandFoo] with [A = 1.5] and
    [B = 2], precision 2: one comment, two items, one space between them. *)
Lemma custom_command_witness :
  PRECISION (globals_after precision_2_args) = decimal 2
  ∧ ∃ st',
      process_command (globals_after precision_2_args) parse_start custom_two = Some st'
      ∧ out st' = ["(Custom: CustomCommandFoo A1.50 B2.00)"]
      ∧ cutting st' = false.
Proof.
  split; [reflexivity|].
  destruct (custom_command_one_comment (globals_after precision_2_args) parse_start
              custom_two) as (items & body & st' & Hitems & Hbody & Hpc & Hout & Hc & _).
  - reflexivity.
  - intros kv Hin. repeat (apply elem_of_cons in Hin as [-> | Hin]); [by eexists..|].
    by apply elem_of_nil in Hin.
  - exists st'. split; [exact Hpc|]. split; [|exact Hc].
    rewrite Hout. apply space_separated_join in Hbody. subst body.
    apply Forall2_cons_inv_l in Hitems as (i1 & its & (s1 & [Hs1 _] & ->) & Hitems & ->).
    apply Forall2_cons_inv_l in Hitems as (i2 & its' & (s2 & [Hs2 _] & ->) & Hitems & ->).
    apply Forall2_nil_inv_l in Hitems as ->.
    injection Hs1 as <-. injection Hs2 as <-. reflexivity.
Defined.

(** The generic rule at [G1 X10 Y10 F500] met with the torch off, under
    [--pierce-delay 1.25]. *)
Lemma torch_transition_witness :
  ∃ st',
    process_command (globals_after slow_pierce_args) parse_start cut_to_10 = Some st'
    ∧ out st' = [ "M7 (Torch ON)"; "G4 P1.25 (Pierce delay)";
                  "G1 X10.000 Y10.000 F500.000" ]
    ∧ cutting st' = true.
Proof.
  destruct (torch_transition_before_own_line (globals_after slow_pierce_args) parse_start
              cut_to_10 ["X10.000"; "Y10.000"; "F500.000"])
    as (st' & Hpc & Hon & _).
  - reflexivity.
  - by vm_compute.
  - exists st'. split; [exact Hpc|]. apply Hon; [|reflexivity].
    by left.
Defined.

(** The movement parameters of an arc in inches, precision 2: X, then the
    feed, then I, whatever the order of the dictionary. *)
Lemma movement_params_witness :
  NoDup (Parameters arc).*1
  ∧ PRECISION (globals_after inches_2_args) = decimal 2
  ∧ movement_params (globals_after inches_2_args) arc
    = Some ["X1.00"; "F19.69"; "I0.00"]
  ∧ ∃ x y f i j,
      ["X1.00"; "F19.69"; "I0.00"] = x ++ y ++ f ++ i ++ j
      ∧ length_entry (globals_after inches_2_args) arc "X" x
      ∧ length_entry (globals_after inches_2_args) arc "Y" y
      ∧ speed_entry (globals_after inches_2_args) arc f
      ∧ length_entry (globals_after inches_2_args) arc "I" i
      ∧ length_entry (globals_after inches_2_args) arc "J" j.
Proof.
  assert (NoDup (Parameters arc).*1) as Hnd.
  { apply (bool_decide_unpack (NoDup _)). by vm_compute. }
  assert (movement_params (globals_after inches_2_args) arc
          = Some ["X1.00"; "F19.69"; "I0.00"]) as Hmp by (by vm_compute).
  split; [exact Hnd|]. split; [reflexivity|]. split; [exact Hmp|].
  exact (proj1 (movement_params_in_fixed_order (globals_after inches_2_args) arc Hnd)
           _ Hmp).
Defined.

(** [M101 P2] gives the same line in inches as in millimetres. *)
Lemma marker_values_witness :
  process_command (globals_after inches_args) parse_start (command "M101" [("P", 2%Q)])
  = process_command initial_globals parse_start (command "M101" [("P", 2%Q)]).
Proof.
  apply (marker_values_not_converted initial_globals (globals_after inches_args)
           parse_start (command "M101" [("P", 2%Q)])).
  - right. right. by left.
  - reflexivity.
Defined.

(** The torch counts of a run of two objects. *)
Lemma torch_closure_witness :
  mapM (parse_lines initial_globals) [scenario_commands; first_cut]
  = Some [ [ "G0 X0.000 Y0.000"; "M7 (Torch ON)"; "G4 P0.5 (Pierce delay)";
             "G1 X10.000 Y10.000 F500.000"; "M8 (Torch OFF)" ];
           [ "M7 (Torch ON)"; "G4 P0.5 (Pierce delay)"; "G1 X1.000";
             "M8 (Torch OFF)" ] ]
  ∧ count_line M7_line
      [ "G0 X0.000 Y0.000"; "M7 (Torch ON)"; "G4 P0.5 (Pierce delay)";
        "G1 X10.000 Y10.000 F500.000"; "M8 (Torch OFF)";
        "M7 (Torch ON)"; "G4 P0.5 (Pierce delay)"; "G1 X1.000"; "M8 (Torch OFF)" ]
    = count_line M8_line
      [ "G0 X0.000 Y0.000"; "M7 (Torch ON)"; "G4 P0.5 (Pierce delay)";
        "G1 X10.000 Y10.000 F500.000"; "M8 (Torch OFF)";
        "M7 (Torch ON)"; "G4 P0.5 (Pierce delay)"; "G1 X1.000"; "M8 (Torch OFF)" ].
Proof.
  assert (mapM (parse_lines initial_globals) [scenario_commands; first_cut]
          = Some [ [ "G0 X0.000 Y0.000"; "M7 (Torch ON)"; "G4 P0.5 (Pierce delay)";
                     "G1 X10.000 Y10.000 F500.000"; "M8 (Torch OFF)" ];
                   [ "M7 (Torch ON)"; "G4 P0.5 (Pierce delay)"; "G1 X1.000";
                     "M8 (Torch OFF)" ] ]) as Hrun by (by vm_compute).
  split; [exact Hrun|].
  exact (proj1 (proj2 (torch_closure_of_engine_output _ _ _ Hrun))).
Defined.

(** [--no-header --pierce-delay abc]: no text is returned. *)
Lemma failed_resolution_witness :
  (processArguments (Some bad_delay_args) initial_globals).1 = false
  ∧ (export [path_object "Cut1" first_cut] (Some bad_delay_args) initial_globals).1
    = Some None.
Proof.
  assert ((processArguments (Some bad_delay_args) initial_globals).1 = false)
    as Hfail by reflexivity.
  split; [exact Hfail|].
  exact (proj1 (failed_resolution_keeps_earlier_options
                  [path_object "Cut1" first_cut] (Some bad_delay_args)
                  initial_globals Hfail)).
Defined.

(** The default postamble through the preamble rule and through its own. *)
Lemma postamble_terminator_witness :
  Forall (λ l, has_boundary l = false) default_POSTAMBLE_lines
  ∧ preamble_text default_POSTAMBLE = default_POSTAMBLE
  ∧ postamble_text default_POSTAMBLE
    = "M8 (Torch OFF)" +:+ LF +:+ LF +:+ "G0 X0 Y0 (Return home)" +:+ LF +:+ LF
      +:+ "M30 (Program end)" +:+ LF +:+ LF.
Proof.
  assert (Forall (λ l, has_boundary l = false) default_POSTAMBLE_lines) as Hls.
  { repeat constructor. }
  split; [exact Hls|].
  exact (postamble_lines_get_second_terminator default_POSTAMBLE_lines Hls).
Defined.

(** [--precision abc] is accepted. *)
Lemma unparsed_precision_witness :
  (processArguments (Some bad_precision_args) initial_globals).1 = true
  ∧ PRECISION (processArguments (Some bad_precision_args) initial_globals).2 = "abc".
Proof.
  apply (unparsed_precision_is_accepted bad_precision_args initial_globals).
  - reflexivity.
  - intros _. by eexists.
Defined.

(** With the precision text [abc] stored, the first number that [parse]
    formats raises; a malformed pierce delay is refused by the resolver. *)
Example malformed_precision_raises_in_parse :
  parse_lines (globals_after bad_precision_args) scenario_commands = None
  ∧ (processArguments (Some bad_delay_args) initial_globals).1 = false.
Proof. by vm_compute. Qed.

(** C1, the claim at two objects that each make one cut, comments and
    header off: [export] fires the torch for each object and closes it
    after each, where one flag carried through the run would fire once and
    close once. *)
Lemma torch_flag_reset_between_objects :
  for_each (export_object (globals_after quiet_args)) ""
    [path_object "Cut1" first_cut; path_object "Cut2" second_cut]
  = Some (text_of [ "M7 (Torch ON)"; "G4 P0.5 (Pierce delay)"; "G1 X1.000";
                    "M8 (Torch OFF)";
                    "M7 (Torch ON)"; "G4 P0.5 (Pierce delay)"; "G1 X2.000";
                    "M8 (Torch OFF)" ])
  ∧ text_of <$> spec_run_lines (globals_after quiet_args) [first_cut; second_cut]
    = Some (text_of [ "M7 (Torch ON)"; "G4 P0.5 (Pierce delay)"; "G1 X1.000";
                      "G1 X2.000"; "M8 (Torch OFF)" ])
  ∧ for_each (export_object (globals_after quiet_args)) ""
      [path_object "Cut1" first_cut; path_object "Cut2" second_cut]
    ≠ text_of <$> spec_run_lines (globals_after quiet_args) [first_cut; second_cut].
Proof. split; [by vm_compute|]. split; [by vm_compute|]. by vm_compute. Qed.

(** C2, the claim on the text of [export].  At the scenario of the
    specification under the default configuration the text holds one
    torch-on line and two torch-off lines, the second from the default
    postamble; and with a preamble of two torch-on lines the first three
    lines of the text hold two torch-on lines and no torch-off line. *)
Lemma postamble_unbalances_torch_counts :
  (∃ gcode,
     (export [path_object "Op" scenario_commands] (Some default_args) initial_globals).1
     = Some (Some gcode)
     ∧ count_line M7_line (text_lines gcode) = 1
     ∧ count_line M8_line (text_lines gcode) = 2
     ∧ count_line M7_line (text_lines gcode) ≠ count_line M8_line (text_lines gcode))
  ∧ (∃ gcode,
       (export [] (Some torch_preamble_args) initial_globals).1 = Some (Some gcode)
       ∧ take 3 (text_lines gcode) `prefix_of` text_lines gcode
       ∧ count_line M7_line (take 3 (text_lines gcode)) = 2
       ∧ count_line M8_line (take 3 (text_lines gcode)) = 0).
Proof.
  split.
  - eexists. split; [by vm_compute|]. by vm_compute.
  - eexists. split; [by vm_compute|]. split; [apply prefix_take|]. by vm_compute.
Qed.

(** C5, the claim at [--no-header --pierce-delay abc]: the resolver fails,
    the header stays switched off, and the next export shows it. *)
Lemma failed_resolution_changes_globals :
  (processArguments (Some bad_delay_args) initial_globals).1 = false
  ∧ (processArguments (Some bad_delay_args) initial_globals).2 ≠ initial_globals
  ∧ (export [] (Some default_args)
       (processArguments (Some bad_delay_args) initial_globals).2).1
    ≠ (export [] (Some default_args) initial_globals).1.
Proof.
  split; [reflexivity|]. split.
  - intros H. apply (f_equal OUTPUT_HEADER) in H. discriminate H.
  - by vm_compute.
Qed.

(** * The further properties at sample inputs *)

(** After [--inches] the three unit globals are imperial. *)
Lemma reachable_units_witness :
  reachable (globals_after inches_args) ∧ units_consistent (globals_after inches_args).
Proof.
  assert (reachable (globals_after inches_args)) as Hreach.
  { apply (reachable_call (Some inches_args) initial_globals), reachable_initial. }
  split; [exact Hreach|]. exact (reachable_units_consistent _ Hreach).
Defined.

(** After a failed call the texts are still there. *)
Lemma reachable_texts_witness :
  reachable (processArguments (Some bad_delay_args) initial_globals).2
  ∧ PRECISION (processArguments (Some bad_delay_args) initial_globals).2 ≠ ""
  ∧ PREAMBLE (processArguments (Some bad_delay_args) initial_globals).2 ≠ ""
  ∧ POSTAMBLE (processArguments (Some bad_delay_args) initial_globals).2 ≠ "".
Proof.
  assert (reachable (processArguments (Some bad_delay_args) initial_globals).2) as Hreach.
  { apply (reachable_call (Some bad_delay_args) initial_globals), reachable_initial. }
  split; [exact Hreach|]. exact (reachable_texts_nonempty _ Hreach).
Defined.

(** [G1 X10 Y10 F500] appends the same three lines to an empty buffer and
    to a buffer in use. *)
Lemma command_effect_witness :
  ∃ st2' k,
    process_command initial_globals busy_state cut_to_10 = Some st2'
    ∧ out after_cut_to_10 = out parse_start ++ k
    ∧ out st2' = out busy_state ++ k
    ∧ length k ≤ 3
    ∧ cutting st2' = cutting after_cut_to_10.
Proof.
  apply (command_effect_depends_on_torch_flag_only initial_globals parse_start busy_state
           after_cut_to_10 cut_to_10).
  - reflexivity.
  - reflexivity.
Defined.

(** A plunge with the torch off fires the torch and writes no [G1] line. *)
Lemma plunge_witness :
  out <$> process_command initial_globals parse_start plunge
  = Some ["M7 (Torch ON)"; "G4 P0.5 (Pierce delay)"].
Proof.
  rewrite (command_without_tracked_letters_has_no_line initial_globals parse_start plunge).
  - reflexivity.
  - reflexivity.
  - intros p Hp. repeat (apply elem_of_cons in Hp as [-> | Hp]); try reflexivity.
    by apply elem_of_nil in Hp.
Defined.

(** After [G1 X10 Y10 F500] the dictionary holds the raw feed 25/3 (mm/s),
    not the 500 mm/min of the line. *)
Lemma location_witness :
  currLocation after_cut_to_10 !! "F" = Some (Qmake 25 3).
Proof.
  etrans.
  - apply (location_records_raw_values initial_globals parse_start after_cut_to_10
             cut_to_10 "F"); reflexivity.
  - reflexivity.
Defined.

(** A cut, the rapid move that ends it, and a second cut. *)
Lemma split_witness :
  torch_after false cut_and_retract = false
  ∧ parse_lines initial_globals (cut_and_retract ++ first_cut)
    = ls1 ← parse_lines initial_globals cut_and_retract;
      ls2 ← parse_lines initial_globals first_cut;
      Some (ls1 ++ ls2).
Proof.
  split; [reflexivity|].
  apply (parse_lines_split_at_torch_off initial_globals cut_and_retract first_cut).
  reflexivity.
Defined.

(** The scenario: two commands, five lines. *)
Lemma length_witness :
  length [ "G0 X0.000 Y0.000"; "M7 (Torch ON)"; "G4 P0.5 (Pierce delay)";
           "G1 X10.000 Y10.000 F500.000"; "M8 (Torch OFF)" ]
  ≤ 3 * length scenario_commands + 1.
Proof.
  apply (parse_lines_length initial_globals scenario_commands). by vm_compute.
Defined.

(** The scenario under [--pierce-delay 1.25]: the torch-on line is the
    second line, the dwell with 1.25 the third. *)
Lemma dwell_witness :
  parse_lines (globals_after slow_pierce_args) scenario_commands
  = Some [ "G0 X0.000 Y0.000"; "M7 (Torch ON)"; "G4 P1.25 (Pierce delay)";
           "G1 X10.000 Y10.000 F500.000"; "M8 (Torch OFF)" ]
  ∧ [ "G0 X0.000 Y0.000"; "M7 (Torch ON)"; "G4 P1.25 (Pierce delay)";
      "G1 X10.000 Y10.000 F500.000"; "M8 (Torch OFF)" ] !! 2
    = Some "G4 P1.25 (Pierce delay)".
Proof.
  assert (parse_lines (globals_after slow_pierce_args) scenario_commands
          = Some [ "G0 X0.000 Y0.000"; "M7 (Torch ON)"; "G4 P1.25 (Pierce delay)";
                   "G1 X10.000 Y10.000 F500.000"; "M8 (Torch OFF)" ]) as Hparse
    by (by vm_compute).
  split; [exact Hparse|].
  exact (dwell_follows_torch_on (globals_after slow_pierce_args) scenario_commands
           _ 1 Hparse eq_refl).
Defined.

(** An inactive object between two cuts, under [--precision abc]. *)
Lemma inactive_object_witness :
  inactive switched_off_object = true
  ∧ export [path_object "Cut1" [plunge]; switched_off_object; path_object "Cut2" [plunge]]
      (Some bad_precision_args) initial_globals
    = export [path_object "Cut1" [plunge]; path_object "Cut2" [plunge]]
        (Some bad_precision_args) initial_globals.
Proof.
  split; [reflexivity|].
  apply (inactive_object_leaves_no_trace [path_object "Cut1" [plunge]]
           [path_object "Cut2" [plunge]] switched_off_object).
  - reflexivity.
  - by eexists.
Defined.

(** The scenario under the default options. *)
Lemma export_returns_text_witness :
  ∃ text,
    (export [path_object "Op" scenario_commands] (Some default_args) initial_globals).1
    = Some (Some text).
Proof.
  apply (export_returns_text [path_object "Op" scenario_commands] (Some default_args)
           initial_globals).
  - reflexivity.
  - repeat constructor. by eexists.
  - intros x. exists (RefHost.fixed 3 x). reflexivity.
Defined.

(** A preamble of three lines, the last one without a line feed. *)
Lemma unterminated_witness :
  preamble_text (text_of ["G90"; "G21"] +:+ "G40") = text_of (["G90"; "G21"] ++ ["G40"])
  ∧ postamble_text (text_of ["G90"; "G21"] +:+ "G40")
    = text_of (map (λ l, l +:+ LF) ["G90"; "G21"] ++ ["G40"]).
Proof.
  apply (unterminated_last_line_gets_one_terminator ["G90"; "G21"] "G40").
  - repeat constructor.
  - reflexivity.
  - discriminate.
Defined.

(** A text of two lines that end in carriage return and line feed. *)
Lemma crlf_witness :
  preamble_text (text_with CRLF ["G90"; "G21"]) = text_of ["G90"; "G21"]
  ∧ postamble_text (text_with CRLF ["G90"; "G21"])
    = text_of (map (λ l, l +:+ CRLF) ["G90"; "G21"]).
Proof.
  apply (crlf_text_is_normalised_in_preamble_only ["G90"; "G21"]).
  repeat constructor.
Defined.

(** The scenario under [--inches]. *)
Lemma imperial_directive_witness :
  ∃ a texts,
    mapM (export_object (globals_after inches_args) "")
      [path_object "Op" scenario_commands] = Some texts
    ∧ inches_scenario_text
      = a +:+ text_of ["G21"; "(Setup for plasma cutting)"; "G20"]
          +:+ String.concat "" texts +:+ export_tail (globals_after inches_args).
Proof.
  apply (imperial_directive_follows_metric_preamble (globals_after inches_args)
           [path_object "Op" scenario_commands] inches_scenario_text).
  - reflexivity.
  - reflexivity.
  - by vm_compute.
Defined.
